(** * hello_world.py: bounding-box denormalisation and the preview loop

    A shallow embedding of [src/hello_world.py]: the helper [frameNorm]
    (NumPy arithmetic on binary64 values) and the host-side [while True]
    loop that polls the two output queues, draws the detections on the held
    frame and shows it until the key [q] is read.

    NumPy's [float64] is IEEE-754 binary64; it is modelled by the
    specification floats of the standard library ([spec_float] with
    precision 53 and maximal exponent 1024), whose operations are plain
    functions on [Z] and [positive]. *)

From Stdlib Require Import ZArith QArith Qround Qpower List Bool String Ascii Lia.
From Stdlib Require Import SpecFloat PrimFloat FloatOps.
Import ListNotations.

Local Open Scope Z_scope.

#[local] Set Warnings "-inexact-float".

(** ** binary64 *)

Module F64.

Definition prec : Z := 53.
Definition emax : Z := 1024.

Definition float64 := spec_float.

(** Well-formed binary64 values: the mantissa is canonical and the
    exponent in range. *)
Definition valid (x : float64) : bool := SpecFloat.valid_binary prec emax x.

Definition mul (x y : float64) : float64 := SFmul prec emax x y.

(** C's comparisons: false as soon as one side is a NaN. *)
Definition ltb (x y : float64) : bool := SFltb x y.
Definition leb (x y : float64) : bool := SFleb x y.

Definition is_nan (x : float64) : bool :=
  match x with S754_nan => true | _ => false end.

(** Conversion of an integer to binary64 (round to nearest, ties to
    even), as done when an int64 array meets a float64 array. *)
Definition of_int (z : Z) : float64 := binary_normalize prec emax z 0 false.

(** The rational a finite value stands for (0 for the others). *)
Definition dy (m e : Z) : Q := inject_Z m * 2 ^ e.

Definition to_Q (x : float64) : Q :=
  match x with
  | S754_finite s m e => dy (cond_Zopp s (Zpos m)) e
  | _ => 0
  end.

Definition INT64_MIN : Z := - 2 ^ 63.
Definition INT64_MAX : Z := 2 ^ 63 - 1.

(** [ndarray.astype(int)] on a float64: C's conversion to a 64-bit
    integer, which drops the fractional part (rounds toward zero).  For a
    NaN, an infinity or a value outside int64 the conversion yields the
    "integer indefinite" value [INT64_MIN] on x86-64. *)
Definition astype_int (x : float64) : Z :=
  match x with
  | S754_zero _ => 0
  | S754_finite s m e =>
      let t := cond_Zopp s (Z.shiftl (Zpos m) e) in
      if (INT64_MIN <=? t) && (t <=? INT64_MAX) then t else INT64_MIN
  | _ => INT64_MIN
  end.

End F64.

Import F64.

(** ** NumPy helpers used by [frameNorm] *)

(** [np.full(n, v)] *)
Definition np_full (n : nat) (v : Z) : list Z := repeat v n.

(** [a[::2] = v]: every second cell, starting with the first, is
    overwritten. *)
Fixpoint assign_even (a : list Z) (v : Z) : list Z :=
  match a with
  | [] => []
  | _ :: rest =>
      v :: match rest with
           | [] => []
           | y :: rest' => y :: assign_even rest' v
           end
  end.

(** The scalar loop of [np.clip]: [min (max x lo) hi] where a NaN in [x]
    is kept and the comparisons are C's. *)
Definition clip_max (a b : float64) : float64 :=
  if is_nan a then a else if ltb b a then a else b.

Definition clip_min (a b : float64) : float64 :=
  if is_nan a then a else if ltb a b then a else b.

Definition np_clip (x lo hi : float64) : float64 :=
  clip_min (clip_max x lo) hi.

(** Elementwise product of a float64 array and an int64 array of the same
    length (the shorter length when they differ: the program only ever
    multiplies arrays of one length). *)
Fixpoint np_mul (xs : list float64) (ns : list Z) : list float64 :=
  match xs, ns with
  | x :: xs', n :: ns' => mul x (of_int n) :: np_mul xs' ns'
  | _, _ => []
  end.

(** ** Frames and detections *)

Definition Point : Type := Z * Z.
Definition Color : Type := Z * Z * Z.

(** One call of [cv2.rectangle] that has been applied to an image. *)
Record Rect := mkRect {
  pt1 : Point;
  pt2 : Point;
  color : Color;
  thickness : Z
}.

(** A negative thickness fills the rectangle, a positive one draws its
    outline. *)
Definition filled (r : Rect) : bool := thickness r <? 0.

(** An OpenCV image: [shape0] rows and [shape1] columns of pixels; the
    picture itself is kept abstract ([pixels] names the decoded buffer) and
    [drawn] lists the rectangles painted on it since it was decoded, oldest
    first. *)
Record Frame := mkFrame {
  shape0 : Z;
  shape1 : Z;
  pixels : nat;
  drawn : list Rect
}.

(** [depthai.ImgDetection] *)
Record Detection := mkDetection {
  label : Z;
  confidence : float64;
  xmin : float64;
  ymin : float64;
  xmax : float64;
  ymax : float64
}.

(** The packets of the two queues. *)
Record ImgFrame := mkImgFrame {
  img_height : Z;
  img_width : Z;
  img_data : nat
}.

Record ImgDetections := mkImgDetections {
  detections_of : list Detection
}.

(** [in_rgb.getCvFrame()]: a fresh image, nothing drawn on it. *)
Definition getCvFrame (p : ImgFrame) : Frame :=
  mkFrame (img_height p) (img_width p) (img_data p) [].

(** ** frameNorm *)

Definition frameNorm (frame : Frame) (bbox : list float64) : list Z :=
  let normVals := np_full (List.length bbox) (shape0 frame) in
  let normVals := assign_even normVals (shape1 frame) in
  map astype_int
      (np_mul (map (fun c => np_clip c (of_int 0) (of_int 1)) bbox) normVals).

(** The spec's [denormalize] on one coordinate and one frame dimension:
    what [frameNorm] does in each cell. *)
Definition denormalize (c : float64) (d : Z) : Z :=
  astype_int (mul (np_clip c (of_int 0) (of_int 1)) (of_int d)).

(** ** The main loop *)

(** [cv2.rectangle(img, pt1, pt2, color, thickness)] paints on [img] in
    place. *)
Definition rectangle (img : Frame) (p1 p2 : Point) (c : Color) (t : Z)
  : Frame :=
  mkFrame (shape0 img) (shape1 img) (pixels img)
          (drawn img ++ [mkRect p1 p2 c t]).

(** What the program does on the screen. *)
Inductive Event :=
| Imshow (winname : string) (img : Frame).

(** The two variables that live across iterations. *)
Record State := mkState {
  frame : option Frame;
  detections : list Detection
}.

(** [frame = None; detections = []] *)
Definition init : State := mkState None [].

(** What one iteration reads: the two [tryGet] results and the key code
    returned by [cv2.waitKey(1)] ([-1] when no key was pressed). *)
Record Polls := mkPolls {
  in_rgb : option ImgFrame;
  in_nn : option ImgDetections;
  key : Z
}.

Definition ord (c : ascii) : Z := Z.of_nat (nat_of_ascii c).

(** Body of [for detection in detections]. *)
Definition draw_detection (img : Frame) (detection : Detection) : Frame :=
  let bbox := frameNorm img [xmin detection; ymin detection;
                             xmax detection; ymax detection] in
  rectangle img (nth 0 bbox 0, nth 1 bbox 0) (nth 2 bbox 0, nth 3 bbox 0)
            (255, 0, 0) 2.

Definition draw_all (img : Frame) (dets : list Detection) : Frame :=
  fold_left draw_detection dets img.

(** The polling part of an iteration: [frame] and [detections] after the
    two [if ... is not None] assignments. *)
Definition poll_frame (p : Polls) (st : State) : option Frame :=
  match in_rgb p with
  | Some pkt => Some (getCvFrame pkt)
  | None => frame st
  end.

Definition poll_detections (p : Polls) (st : State) : list Detection :=
  match in_nn p with
  | Some pkt => detections_of pkt
  | None => detections st
  end.

(** One iteration of [while True]: the new state, what was shown, and
    whether the loop goes on ([false] stands for [break]). *)
Definition step (p : Polls) (st : State) : State * list Event * bool :=
  let frame1 := poll_frame p st in
  let detections1 := poll_detections p st in
  let '(frame2, shown) :=
    match frame1 with
    | Some img =>
        let img' := draw_all img detections1 in
        (Some img', [Imshow "preview"%string img'])
    | None => (None, [])
    end in
  (mkState frame2 detections1, shown, negb (key p =? ord "q"%char)).

Definition next_state (p : Polls) (st : State) : State := fst (fst (step p st)).
Definition shown (p : Polls) (st : State) : list Event := snd (fst (step p st)).
Definition continues (p : Polls) (st : State) : bool := snd (step p st).

Inductive Status := Running | Exited.

(** The loop over the polls of its first iterations.  [Exited] is [break];
    [Running] means every given iteration was run and the loop is about to
    start the next one. *)
Fixpoint main_loop (polls : list Polls) (st : State)
  : list Event * State * Status :=
  match polls with
  | [] => ([], st, Running)
  | p :: rest =>
      let '(st', out, continue) := step p st in
      if continue then
        let '(out', st'', status) := main_loop rest st' in
        (out ++ out', st'', status)
      else (out, st', Exited)
  end.

Definition events (polls : list Polls) (st : State) : list Event :=
  fst (fst (main_loop polls st)).
Definition final_state (polls : list Polls) (st : State) : State :=
  snd (fst (main_loop polls st)).
Definition status_of (polls : list Polls) (st : State) : Status :=
  snd (main_loop polls st).

(** The rectangle the loop body paints for one detection on [img]. *)
Definition bbox_rect (img : Frame) (d : Detection) : Rect :=
  let bbox := frameNorm img [xmin d; ymin d; xmax d; ymax d] in
  mkRect (nth 0 bbox 0, nth 1 bbox 0) (nth 2 bbox 0, nth 3 bbox 0)
         (255, 0, 0) 2.

Definition image_of (ev : Event) : Frame :=
  match ev with Imshow _ img => img end.

(** The spec's words for [denormalize]: clamp the coordinate to [0, 1],
    scale it by the frame dimension, drop the fractional part. *)
Definition clamp01 (c : float64) : float64 :=
  if leb c (of_int 0) then of_int 0
  else if leb (of_int 1) c then of_int 1
  else c.

Definition scale_trunc (c : float64) (d : Z) : Z :=
  astype_int (mul c (of_int d)).

(** No rectangle on the held frame, if there is one. *)
Definition unpainted (o : option Frame) : Prop :=
  match o with Some img => drawn img = [] | None => True end.

(** Literals of the source language, read as binary64. *)
Definition f64 (x : PrimFloat.float) : float64 := Prim2SF x.

Definition frame300 : Frame := getCvFrame (mkImgFrame 300 300 0).

(** ** Notions used to state the rounding of binary64 *)

(** [rne M k]: the integer nearest to [M / 2^k], the even one in a tie. *)
Definition rne (M k : Z) : Z :=
  let q := M / 2 ^ k in
  match 2 * (M mod 2 ^ k) ?= 2 ^ k with
  | Lt => q
  | Eq => if Z.even q then q else q + 1
  | Gt => q + 1
  end.

(** The mantissa, at exponent [g], of the dyadic number [M * 2^E] rounded
    to the multiples of [2^g]. *)
Definition rgrid (g M E : Z) : Z :=
  if g <=? E then M * 2 ^ (E - g) else rne M (g - E).

(** Magnitude of a positive dyadic number: [2^(mag - 1) <= M * 2^E < 2^mag]. *)
Definition mag (M E : Z) : Z := Zdigits2 M + E.

(** The record after [n >= 1] right shifts of [M]: the quotient, the last
    bit shifted out, and whether a lower bit was set. *)
Definition shifted (M : Z) (n : nat) : shr_record :=
  Build_shr_record (M / 2 ^ Z.of_nat n)
                   (Z.odd (M / 2 ^ (Z.of_nat n - 1)))
                   (negb (M mod 2 ^ (Z.of_nat n - 1) =? 0)).

(** Exponent and mantissa of the binary64 value nearest to [M * 2^E]. *)
Definition rnd_exp (M E : Z) : Z := fexp prec emax (mag M E).

Definition rnd_mant (M E : Z) : Z := rgrid (rnd_exp M E) M E.

Definition rnd (M E : Z) : Q := dy (rnd_mant M E) (rnd_exp M E).

(** What [binary_round_aux] returns for the mantissa [m] and exponent [e]
    it ends with. *)
Definition packed (s : bool) (m e : Z) : float64 :=
  match m with
  | Z0 => S754_zero s
  | Zpos p => S754_finite s p e
  | Zneg _ => S754_nan
  end.

(** A clamped coordinate: [+0], or a positive value at most 1. *)
Definition unit_form (x : float64) : Prop :=
  x = S754_zero false
  \/ exists m e, x = S754_finite false m e /\ (dy (Zpos m) e <= 1)%Q.

(** A value that single precision represents: the device reports its
    coordinates as C [float]s, which Python widens to binary64 as they
    are. *)
Definition binary32 (c : float64) : Prop :=
  exists m e, 0 <= m < 2 ^ 24 /\ -149 <= e <= 104 /\ (to_Q c == dy m e)%Q.

(** Rounding a rational toward zero. *)
Definition Qtrunc (q : Q) : Z :=
  if Qle_bool 0 q then Qfloor q else Qceiling q.

(** ** Notions used to state properties of whole runs *)

(** The iterations the loop really runs on the given polls: all of them up
    to and including the first one whose key poll reads [q]. *)
Fixpoint processed (polls : list Polls) : list Polls :=
  match polls with
  | [] => []
  | p :: rest => p :: if key p =? ord "q"%char then [] else processed rest
  end.

(** The last packet a queue delivered, if any. *)
Fixpoint last_some {A : Type} (l : list (option A)) : option A :=
  match l with
  | [] => None
  | x :: rest =>
      match last_some rest with
      | Some y => Some y
      | None => x
      end
  end.

(** The batch held in each iteration that is run, starting from the held
    batch [dets]. *)
Fixpoint held_batches (polls : list Polls) (dets : list Detection)
  : list (list Detection) :=
  match polls with
  | [] => []
  | p :: rest =>
      let dets' := match in_nn p with
                   | Some pkt => detections_of pkt
                   | None => dets
                   end in
      dets' :: if key p =? ord "q"%char then [] else held_batches rest dets'
  end.

(** The picture an image holds, whatever has been painted on it. *)
Definition buffer_of (img : Frame) : Z * Z * nat :=
  (shape0 img, shape1 img, pixels img).

Definition buffer_of_packet (pkt : ImgFrame) : Z * Z * nat :=
  (img_height pkt, img_width pkt, img_data pkt).

Definition window_of (ev : Event) : string :=
  match ev with Imshow w _ => w end.

(** A rectangle as the loop paints it, with both corners on the image
    [img] or on its border. *)
Definition rect_in_frame (img : Frame) (r : Rect) : Prop :=
  0 <= fst (pt1 r) <= shape1 img /\ 0 <= snd (pt1 r) <= shape0 img
  /\ 0 <= fst (pt2 r) <= shape1 img /\ 0 <= snd (pt2 r) <= shape0 img
  /\ color r = (255, 0, 0) /\ thickness r = 2.

(** A coordinate that is a binary64 number (an infinity included). *)
Definition number (c : float64) : Prop := valid c = true /\ is_nan c = false.

Definition numeric_detection (d : Detection) : Prop :=
  number (xmin d) /\ number (ymin d) /\ number (xmax d) /\ number (ymax d).

(** Packets as the device sends them: image dimensions that binary64
    represents, detections with numeric coordinates. *)
Definition device_polls (p : Polls) : Prop :=
  match in_rgb p with
  | Some pkt => 0 <= img_height pkt < 2 ^ 53 /\ 0 <= img_width pkt < 2 ^ 53
  | None => True
  end
  /\ match in_nn p with
     | Some pkt => Forall numeric_detection (detections_of pkt)
     | None => True
     end.

(** What the loop keeps true of its two variables on such packets. *)
Definition state_ok (st : State) : Prop :=
  Forall numeric_detection (detections st)
  /\ match frame st with
     | Some img =>
         0 <= shape0 img < 2 ^ 53 /\ 0 <= shape1 img < 2 ^ 53
         /\ Forall (rect_in_frame img) (drawn img)
     | None => True
     end.

(** * Properties *)

(** ** Rounding to nearest, ties to even *)

Section Digits.

Lemma digits2_pos_bounds p :
  2 ^ (Zpos (digits2_pos p) - 1) <= Zpos p < 2 ^ Zpos (digits2_pos p).
Proof.
  induction p as [p IH|p IH|]; cbn [digits2_pos].
  - rewrite Pos2Z.inj_succ.
    replace (Z.succ (Zpos (digits2_pos p)) - 1) with (Z.succ (Zpos (digits2_pos p) - 1)) by lia.
    rewrite !Z.pow_succ_r by lia. lia.
  - rewrite Pos2Z.inj_succ.
    replace (Z.succ (Zpos (digits2_pos p)) - 1) with (Z.succ (Zpos (digits2_pos p) - 1)) by lia.
    rewrite !Z.pow_succ_r by lia. lia.
  - cbn. lia.
Qed.

Lemma Zdigits2_bounds M :
  0 < M -> 2 ^ (Zdigits2 M - 1) <= M < 2 ^ Zdigits2 M.
Proof.
  destruct M as [|p|p]; try lia. intros _. apply digits2_pos_bounds.
Qed.

Lemma Zdigits2_pos M : 0 < M -> 0 < Zdigits2 M.
Proof. destruct M; cbn; lia. Qed.

Lemma Zdigits2_le M n : 0 < M -> 0 <= n -> M < 2 ^ n -> Zdigits2 M <= n.
Proof.
  intros HM Hn Hlt. pose proof (Zdigits2_bounds M HM) as [Hlo _].
  pose proof (Zdigits2_pos M HM).
  destruct (Z_le_gt_dec (Zdigits2 M) n) as [|Hgt]; [assumption|exfalso].
  assert (2 ^ n <= 2 ^ (Zdigits2 M - 1)) by (apply Z.pow_le_mono_r; lia).
  lia.
Qed.

End Digits.

Section Shift.

Lemma iter_pos_nat {A} (f : A -> A) p : forall x,
  iter_pos f p x = Nat.iter (Pos.to_nat p) f x.
Proof.
  induction p as [p IH|p IH|]; intros x; cbn [iter_pos].
  - rewrite !IH, Pos2Nat.inj_xI.
    replace (S (2 * Pos.to_nat p)) with (Pos.to_nat p + (Pos.to_nat p + 1))%nat by lia.
    rewrite !Nat.iter_add. reflexivity.
  - rewrite !IH, Pos2Nat.inj_xO.
    replace (2 * Pos.to_nat p)%nat with (Pos.to_nat p + Pos.to_nat p)%nat by lia.
    rewrite Nat.iter_add. reflexivity.
  - reflexivity.
Qed.

Lemma shr_1_nonneg m r s :
  0 <= m ->
  shr_1 (Build_shr_record m r s) = Build_shr_record (m / 2) (Z.odd m) (r || s).
Proof.
  intros Hm. destruct m as [|p|p]; [reflexivity| |lia].
  destruct p as [p|p|]; cbn [shr_1 Z.odd].
  - replace (Z.pos p~1 / 2) with (Z.pos p); [reflexivity|].
    rewrite Pos2Z.inj_xI. apply Z.div_unique with 1; lia.
  - replace (Z.pos p~0 / 2) with (Z.pos p); [reflexivity|].
    rewrite Pos2Z.inj_xO. apply Z.div_unique with 0; lia.
  - reflexivity.
Qed.

Lemma iter_shr_1 M n :
  0 <= M ->
  Nat.iter (S n) shr_1 (Build_shr_record M false false) = shifted M (S n).
Proof.
  intros HM. induction n as [|n IH].
  - cbn [Nat.iter nat_rect]. rewrite shr_1_nonneg by assumption.
    unfold shifted. cbn. rewrite Z.div_1_r, Z.mod_1_r. reflexivity.
  - change (Nat.iter (S (S n)) shr_1 ?x) with (shr_1 (Nat.iter (S n) shr_1 x)).
    rewrite IH. unfold shifted.
    assert (H2 : 0 < 2 ^ Z.of_nat n) by (apply Z.pow_pos_nonneg; lia).
    rewrite shr_1_nonneg by (apply Z.div_pos; [assumption|apply Z.pow_pos_nonneg; lia]).
    replace (Z.of_nat (S (S n)) - 1) with (Z.of_nat (S n)) by lia.
    replace (Z.of_nat (S n) - 1) with (Z.of_nat n) by lia.
    replace (Z.of_nat (S (S n))) with (Z.of_nat (S n) + 1) by lia.
    rewrite (Z.pow_add_r 2 (Z.of_nat (S n)) 1) by lia.
    rewrite <- Z.div_div by (try apply Z.pow_pos_nonneg; lia).
    f_equal.
    replace (Z.of_nat (S n)) with (Z.of_nat n + 1) by lia.
    rewrite (Z.pow_add_r 2 (Z.of_nat n) 1) by lia. change (2 ^ 1) with 2.
    rewrite Z.rem_mul_r by lia.
    set (a := M mod 2 ^ Z.of_nat n). set (b := M / 2 ^ Z.of_nat n).
    assert (Ha : 0 <= a < 2 ^ Z.of_nat n) by (apply Z.mod_pos_bound; lia).
    assert (Hb : 0 <= b mod 2 < 2) by (apply Z.mod_pos_bound; lia).
    rewrite (Zodd_mod b).
    destruct (Z.eqb_spec a 0) as [Ea|Na], (Z.eqb_spec (b mod 2) 1) as [Eb|Nb];
      cbn [negb orb].
    + rewrite Ea, Eb. destruct (Z.eqb_spec (0 + 2 ^ Z.of_nat n * 1) 0); [lia|reflexivity].
    + assert (b mod 2 = 0) by lia.
      destruct (Z.eqb_spec (a + 2 ^ Z.of_nat n * (b mod 2)) 0); [reflexivity|nia].
    + destruct (Z.eqb_spec (a + 2 ^ Z.of_nat n * (b mod 2)) 0); [nia|reflexivity].
    + destruct (Z.eqb_spec (a + 2 ^ Z.of_nat n * (b mod 2)) 0); [nia|reflexivity].
Qed.

Lemma rne_shifted M n :
  0 <= M ->
  round_nearest_even (shr_m (shifted M (S n))) (loc_of_shr_record (shifted M (S n)))
  = rne M (Z.of_nat (S n)).
Proof.
  intros HM. unfold shifted, rne. cbn [shr_m].
  replace (Z.of_nat (S n) - 1) with (Z.of_nat n) by lia.
  replace (Z.of_nat (S n)) with (Z.of_nat n + 1) by lia.
  assert (H2 : 0 < 2 ^ Z.of_nat n) by (apply Z.pow_pos_nonneg; lia).
  rewrite (Z.pow_add_r 2 (Z.of_nat n) 1) by lia. change (2 ^ 1) with 2.
  rewrite Z.rem_mul_r by lia.
  rewrite <- Z.div_div by lia.
  set (a := M mod 2 ^ Z.of_nat n). set (b := M / 2 ^ Z.of_nat n).
  assert (Ha : 0 <= a < 2 ^ Z.of_nat n) by (apply Z.mod_pos_bound; lia).
  assert (Hb : 0 <= b mod 2 < 2) by (apply Z.mod_pos_bound; lia).
  rewrite (Zodd_mod b).
  destruct (Z.eqb_spec (b mod 2) 1) as [Eb|Nb], (Z.eqb_spec a 0) as [Ea|Na];
    cbn [negb loc_of_shr_record round_nearest_even].
  - rewrite Eb, Ea.
    replace (2 * (0 + 2 ^ Z.of_nat n * 1)) with (2 ^ Z.of_nat n * 2) by lia.
    rewrite Z.compare_refl. reflexivity.
  - rewrite Eb.
    destruct (Z.compare_spec (2 * (a + 2 ^ Z.of_nat n * 1)) (2 ^ Z.of_nat n * 2)); try lia.
  - assert (E0 : b mod 2 = 0) by lia. rewrite E0, Ea.
    destruct (Z.compare_spec (2 * (0 + 2 ^ Z.of_nat n * 0)) (2 ^ Z.of_nat n * 2)); try lia.
  - assert (E0 : b mod 2 = 0) by lia. rewrite E0.
    destruct (Z.compare_spec (2 * (a + 2 ^ Z.of_nat n * 0)) (2 ^ Z.of_nat n * 2)); try lia.
Qed.

(** The first half of [binary_round_aux]: shifting [M] right by [p] bits
    and rounding what is left. *)
Lemma shr_round M e p :
  0 <= M ->
  let '(mrs, e') := shr (Build_shr_record M false false) e (Zpos p) in
  e' = e + Zpos p
  /\ round_nearest_even (shr_m mrs) (loc_of_shr_record mrs) = rne M (Zpos p).
Proof.
  intros HM. cbn [shr]. split; [reflexivity|].
  rewrite iter_pos_nat.
  destruct (Pos2Nat.is_succ p) as [n Hn]. rewrite Hn.
  rewrite iter_shr_1 by assumption. rewrite rne_shifted by assumption.
  f_equal. rewrite <- Hn. apply positive_nat_Z.
Qed.

End Shift.

Section Nearest.

Lemma rne_bounds M k :
  0 <= k -> M / 2 ^ k <= rne M k <= M / 2 ^ k + 1.
Proof.
  intros Hk. unfold rne.
  destruct (2 * (M mod 2 ^ k) ?= 2 ^ k); [destruct (Z.even _)| |]; lia.
Qed.

Lemma rne_exact A k : 0 <= k -> rne (A * 2 ^ k) k = A.
Proof.
  intros Hk. unfold rne.
  assert (H2 : 0 < 2 ^ k) by (apply Z.pow_pos_nonneg; lia).
  rewrite Z.mod_mul, Z.div_mul by lia.
  destruct (Z.compare_spec (2 * 0) (2 ^ k)); lia.
Qed.

Lemma rne_mono M1 M2 k :
  0 <= k -> M1 <= M2 -> rne M1 k <= rne M2 k.
Proof.
  intros Hk HM.
  assert (H2 : 0 < 2 ^ k) by (apply Z.pow_pos_nonneg; lia).
  pose proof (Z.div_le_mono M1 M2 (2 ^ k) H2 HM) as Hq.
  destruct (Z.eq_dec (M1 / 2 ^ k) (M2 / 2 ^ k)) as [E|N].
  - pose proof (Z.div_mod M1 (2 ^ k)) as D1.
    pose proof (Z.div_mod M2 (2 ^ k)) as D2.
    assert (Hr : M1 mod 2 ^ k <= M2 mod 2 ^ k) by (rewrite E in D1; lia).
    unfold rne. rewrite E.
    destruct (Z.compare_spec (2 * (M1 mod 2 ^ k)) (2 ^ k)),
             (Z.compare_spec (2 * (M2 mod 2 ^ k)) (2 ^ k));
      try destruct (Z.even _); lia.
  - pose proof (rne_bounds M1 k Hk). pose proof (rne_bounds M2 k Hk). lia.
Qed.

Lemma rne_scale M k j :
  0 <= k -> 0 <= j -> rne (M * 2 ^ j) (k + j) = rne M k.
Proof.
  intros Hk Hj. unfold rne.
  assert (Hk2 : 0 < 2 ^ k) by (apply Z.pow_pos_nonneg; lia).
  assert (Hj2 : 0 < 2 ^ j) by (apply Z.pow_pos_nonneg; lia).
  rewrite Z.pow_add_r by lia.
  rewrite Z.div_mul_cancel_r by lia.
  rewrite Zmult_mod_distr_r.
  replace (2 * (M mod 2 ^ k * 2 ^ j)) with (2 * (M mod 2 ^ k) * 2 ^ j) by lia.
  rewrite (Z.mul_comm (2 * (M mod 2 ^ k))), (Z.mul_comm (2 ^ k)).
  rewrite <- Zmult_compare_compat_l by lia. reflexivity.
Qed.

Lemma rgrid_scale g M E j :
  0 <= j -> rgrid g (M * 2 ^ j) (E - j) = rgrid g M E.
Proof.
  intros Hj. unfold rgrid.
  destruct (Z.leb_spec g (E - j)), (Z.leb_spec g E); try lia.
  - rewrite <- Z.mul_assoc, <- Z.pow_add_r by lia. f_equal. f_equal. lia.
  - replace (M * 2 ^ j) with (M * 2 ^ (E - g) * 2 ^ (g - (E - j))).
    + apply rne_exact. lia.
    + rewrite <- Z.mul_assoc, <- Z.pow_add_r by lia. f_equal. f_equal. lia.
  - replace (g - (E - j)) with (g - E + j) by lia. apply rne_scale; lia.
Qed.

Lemma rgrid_mono_same g M1 M2 E :
  M1 <= M2 -> rgrid g M1 E <= rgrid g M2 E.
Proof.
  intros HM. unfold rgrid. destruct (Z.leb_spec g E).
  - apply Z.mul_le_mono_nonneg_r; [apply Z.pow_nonneg; lia|assumption].
  - apply rne_mono; lia.
Qed.

Lemma rgrid_nonneg g M E : 0 <= M -> 0 <= rgrid g M E.
Proof.
  intros HM. unfold rgrid. destruct (Z.leb_spec g E).
  - apply Z.mul_nonneg_nonneg; [assumption|apply Z.pow_nonneg; lia].
  - pose proof (rne_bounds M (g - E) ltac:(lia)).
    assert (0 <= M / 2 ^ (g - E)) by (apply Z.div_pos; [assumption|apply Z.pow_pos_nonneg; lia]).
    lia.
Qed.

End Nearest.

(** ** Dyadic rationals *)

Section Dyadic.

Local Open Scope Q_scope.

Lemma two_pow_pos e : 0 < 2 ^ e.
Proof. apply Qpower_0_lt. reflexivity. Qed.

Lemma two_pow_add a b : (2:Q) ^ (a + b) == 2 ^ a * 2 ^ b.
Proof. apply Qpower_plus. discriminate. Qed.

Lemma two_pow_Z k : (0 <= k)%Z -> (2:Q) ^ k == inject_Z (2 ^ k).
Proof. intros Hk. rewrite Zpower_Qpower by assumption. reflexivity. Qed.

Lemma dy_shift m e k : (0 <= k)%Z -> dy (m * 2 ^ k) e == dy m (e + k).
Proof.
  intros Hk. unfold dy.
  rewrite inject_Z_mult, two_pow_add, <- two_pow_Z by assumption. ring.
Qed.

Lemma dy_le m n e : dy m e <= dy n e <-> (m <= n)%Z.
Proof.
  unfold dy. rewrite Qmult_le_r by apply two_pow_pos.
  rewrite <- Zle_Qle. reflexivity.
Qed.

Lemma dy_lt m n e : dy m e < dy n e <-> (m < n)%Z.
Proof.
  unfold dy. rewrite Qmult_lt_r by apply two_pow_pos.
  rewrite <- Zlt_Qlt. reflexivity.
Qed.

Lemma dy_0 e : dy 0 e == 0.
Proof. unfold dy. ring. Qed.

Lemma dy_Z m : dy m 0 == inject_Z m.
Proof. unfold dy. cbn. ring. Qed.

Lemma dy_nonneg m e : (0 <= m)%Z -> 0 <= dy m e.
Proof. intros H. rewrite <- (dy_0 e). now apply dy_le. Qed.

(** Rounding on one grid is monotone in the number rounded. *)
Lemma rgrid_mono g M1 E1 M2 E2 :
  dy M1 E1 <= dy M2 E2 -> (rgrid g M1 E1 <= rgrid g M2 E2)%Z.
Proof.
  intros H.
  set (E0 := Z.min E1 E2).
  rewrite <- (rgrid_scale g M1 E1 (E1 - E0)), <- (rgrid_scale g M2 E2 (E2 - E0)) by lia.
  replace (E1 - (E1 - E0))%Z with E0 by lia.
  replace (E2 - (E2 - E0))%Z with E0 by lia.
  apply rgrid_mono_same. apply (dy_le _ _ E0).
  rewrite !dy_shift by lia.
  replace (E0 + (E1 - E0))%Z with E1 by lia.
  replace (E0 + (E2 - E0))%Z with E2 by lia.
  exact H.
Qed.

(** A multiple of [2^g] is left as it is. *)
Lemma rgrid_point g n g' : (g <= g')%Z -> dy (rgrid g n g') g == dy n g'.
Proof.
  intros H. unfold rgrid. destruct (Z.leb_spec g g'); [|lia].
  rewrite dy_shift by lia. replace (g + (g' - g))%Z with g' by lia. reflexivity.
Qed.

Lemma rgrid_le_point g M E n g' :
  (g <= g')%Z -> dy M E <= dy n g' -> dy (rgrid g M E) g <= dy n g'.
Proof.
  intros Hg H. rewrite <- (rgrid_point g n g' Hg). apply dy_le.
  now apply rgrid_mono.
Qed.

Lemma rgrid_ge_point g M E n g' :
  (g <= g')%Z -> dy n g' <= dy M E -> dy n g' <= dy (rgrid g M E) g.
Proof.
  intros Hg H. rewrite <- (rgrid_point g n g' Hg). apply dy_le.
  now apply rgrid_mono.
Qed.

Lemma dy_mag_bounds M E :
  (0 < M)%Z -> dy 1 (mag M E - 1) <= dy M E /\ dy M E < dy 1 (mag M E).
Proof.
  intros HM. unfold mag.
  pose proof (Zdigits2_bounds M HM) as [Hlo Hhi].
  pose proof (Zdigits2_pos M HM) as Hd.
  split.
  - replace (Zdigits2 M + E - 1)%Z with (E + (Zdigits2 M - 1))%Z by lia.
    rewrite <- dy_shift by lia. apply dy_le. lia.
  - replace (Zdigits2 M + E)%Z with (E + Zdigits2 M)%Z by lia.
    rewrite <- dy_shift by lia. apply dy_lt. lia.
Qed.

Lemma dy_1_le a b : (a <= b)%Z -> dy 1 a <= dy 1 b.
Proof.
  intros H. replace b with (a + (b - a))%Z by lia.
  rewrite <- dy_shift by lia. apply dy_le.
  assert (0 < 2 ^ (b - a))%Z by (apply Z.pow_pos_nonneg; lia). lia.
Qed.

Lemma dy_le_mag M1 E1 M2 E2 :
  (0 < M1)%Z -> (0 < M2)%Z -> dy M1 E1 <= dy M2 E2 -> (mag M1 E1 <= mag M2 E2)%Z.
Proof.
  intros H1 H2 H.
  destruct (Z_le_gt_dec (mag M1 E1) (mag M2 E2)) as [|Hgt]; [assumption|exfalso].
  pose proof (dy_mag_bounds M1 E1 H1) as [L1 _].
  pose proof (dy_mag_bounds M2 E2 H2) as [_ U2].
  assert (dy 1 (mag M2 E2) <= dy 1 (mag M1 E1 - 1)) by (apply dy_1_le; lia).
  apply (Qlt_irrefl (dy M2 E2)).
  eapply Qlt_le_trans; [exact U2|].
  eapply Qle_trans; [eassumption|]. eapply Qle_trans; eassumption.
Qed.

End Dyadic.

(** ** Rounding into binary64 *)

Section Round.

Local Open Scope Q_scope.

Lemma fexp_eq e : fexp prec emax e = Z.max (e - 53) (-1074).
Proof. reflexivity. Qed.

Lemma rnd_exp_mono M1 E1 M2 E2 :
  (mag M1 E1 <= mag M2 E2)%Z -> (rnd_exp M1 E1 <= rnd_exp M2 E2)%Z.
Proof. unfold rnd_exp. rewrite !fexp_eq. lia. Qed.

Lemma rnd_le_point M E n g' :
  (rnd_exp M E <= g')%Z -> dy M E <= dy n g' -> rnd M E <= dy n g'.
Proof. apply rgrid_le_point. Qed.

Lemma rnd_ge_point M E n g' :
  (rnd_exp M E <= g')%Z -> dy n g' <= dy M E -> dy n g' <= rnd M E.
Proof. apply rgrid_ge_point. Qed.

(** Rounding to nearest is monotone. *)
Lemma rnd_mono M1 E1 M2 E2 :
  (0 < M1)%Z -> (0 < M2)%Z -> dy M1 E1 <= dy M2 E2 -> rnd M1 E1 <= rnd M2 E2.
Proof.
  intros H1 H2 H.
  pose proof (dy_le_mag M1 E1 M2 E2 H1 H2 H) as Hmag.
  pose proof (rnd_exp_mono M1 E1 M2 E2 Hmag) as Hg.
  destruct (Z.eq_dec (rnd_exp M1 E1) (rnd_exp M2 E2)) as [Eg|Ng].
  - unfold rnd, rnd_mant. rewrite Eg. apply dy_le. now apply rgrid_mono.
  - assert (Hlt : (mag M1 E1 < mag M2 E2)%Z).
    { destruct (Z.eq_dec (mag M1 E1) (mag M2 E2)) as [Em|]; [|lia].
      unfold rnd_exp in Ng. now rewrite Em in Ng. }
    assert (Hb : (rnd_exp M2 E2 <= mag M2 E2 - 1)%Z).
    { unfold rnd_exp in *. rewrite !fexp_eq in *. lia. }
    pose proof (dy_mag_bounds M1 E1 H1) as [_ U1].
    pose proof (dy_mag_bounds M2 E2 H2) as [L2 _].
    apply Qle_trans with (dy 1 (mag M2 E2 - 1)).
    + apply rnd_le_point; [lia|].
      apply Qlt_le_weak. eapply Qlt_le_trans; [exact U1|]. apply dy_1_le. lia.
    + apply rnd_ge_point; [lia|exact L2].
Qed.

Lemma rnd_mant_nonneg M E : (0 <= M)%Z -> (0 <= rnd_mant M E)%Z.
Proof. apply rgrid_nonneg. Qed.

Lemma rnd_nonneg M E : (0 <= M)%Z -> 0 <= rnd M E.
Proof. intros H. apply dy_nonneg. now apply rnd_mant_nonneg. Qed.

Lemma rnd_exp_ge M E : (-1074 <= rnd_exp M E)%Z.
Proof. unfold rnd_exp. rewrite fexp_eq. lia. Qed.

Lemma rnd_mant_bound M E :
  (0 < M)%Z -> (rnd_mant M E <= 2 ^ 53)%Z.
Proof.
  intros HM. unfold rnd_mant, rgrid.
  pose proof (Zdigits2_bounds M HM) as [_ Hhi].
  pose proof (Zdigits2_pos M HM) as Hd.
  assert (Hg : (Zdigits2 M + E - 53 <= rnd_exp M E)%Z)
    by (unfold rnd_exp, mag; rewrite fexp_eq; lia).
  destruct (Z.leb_spec (rnd_exp M E) E) as [Hle|Hgt].
  - assert (M * 2 ^ (E - rnd_exp M E) < 2 ^ 53)%Z; [|lia].
    apply Z.lt_le_trans with (2 ^ Zdigits2 M * 2 ^ (E - rnd_exp M E))%Z.
    + apply Z.mul_lt_mono_pos_r; [apply Z.pow_pos_nonneg; lia|assumption].
    + rewrite <- Z.pow_add_r by lia. apply Z.pow_le_mono_r; lia.
  - set (k := (rnd_exp M E - E)%Z) in *.
    pose proof (rne_bounds M k ltac:(lia)) as [_ Hr].
    assert (M / 2 ^ k < 2 ^ 53)%Z; [|lia].
    apply Z.div_lt_upper_bound; [apply Z.pow_pos_nonneg; lia|].
    rewrite <- Z.pow_add_r by lia.
    eapply Z.lt_le_trans; [exact Hhi|]. apply Z.pow_le_mono_r; lia.
Qed.

(** The second shift of [binary_round_aux] does not change the value: it
    only happens when the rounding carried into [2^53]. *)
Lemma renormalise m g :
  (0 < m <= 2 ^ 53)%Z -> (-1074 <= g)%Z ->
  let '(mrs, e2) := shr_fexp prec emax m g loc_Exact in
  (0 < shr_m mrs)%Z /\ dy (shr_m mrs) e2 == dy m g /\ (e2 <= g + 1)%Z.
Proof.
  intros [Hm Hb] Hg. unfold shr_fexp. cbn [shr_record_of_loc].
  rewrite fexp_eq.
  destruct (Z.eq_dec m (2 ^ 53)) as [E|N].
  - subst m. change (Zdigits2 (2 ^ 53)) with 54%Z.
    replace (Z.max (54 + g - 53) (-1074) - g)%Z with 1%Z by lia.
    cbn [shr iter_pos shr_1 shr_m]. change (2 ^ 53)%Z with (2 ^ 52 * 2 ^ 1)%Z.
    split; [reflexivity|]. split; [|lia].
    symmetry. apply dy_shift. lia.
  - assert (Hd : (Zdigits2 m <= 53)%Z) by (apply Zdigits2_le; lia).
    destruct (Z.max (Zdigits2 m + g - 53) (-1074) - g)%Z eqn:Ek; try lia;
      cbn [shr shr_m]; (split; [assumption|split; [reflexivity|lia]]).
Qed.

Lemma renormalise_0 g :
  (-1074 <= g)%Z ->
  shr_fexp prec emax 0 g loc_Exact = (Build_shr_record 0 false false, g).
Proof.
  intros Hg. unfold shr_fexp. cbn [shr_record_of_loc Zdigits2].
  rewrite fexp_eq.
  destruct (Z.max (0 + g - 53) (-1074) - g)%Z eqn:Ek; try lia; reflexivity.
Qed.

(** The first shift of [binary_round_aux], followed by the rounding of the
    mantissa. *)
Lemma first_shift M E :
  (0 < M)%Z ->
  let '(mrs, e1) := shr_fexp prec emax M E loc_Exact in
  let m1 := round_nearest_even (shr_m mrs) (loc_of_shr_record mrs) in
  (0 <= m1 <= 2 ^ 53)%Z /\ (-1074 <= e1)%Z
  /\ (e1 <= Z.max E (rnd_exp M E))%Z /\ dy m1 e1 == rnd M E.
Proof.
  intros HM.
  pose proof (rnd_mant_bound M E HM) as Hb.
  pose proof (rnd_mant_nonneg M E ltac:(lia)) as Hn.
  pose proof (rnd_exp_ge M E) as Hge.
  unfold shr_fexp. cbn [shr_record_of_loc].
  fold (mag M E). fold (rnd_exp M E).
  assert (Hex : (rnd_exp M E <= E)%Z ->
                (0 <= M <= 2 ^ 53)%Z /\ (-1074 <= E)%Z
                /\ (E <= Z.max E (rnd_exp M E))%Z /\ dy M E == rnd M E).
  { intros Hle. unfold rnd. unfold rnd_mant, rgrid in *.
    destruct (Z.leb_spec (rnd_exp M E) E); [|lia].
    assert (0 < 2 ^ (E - rnd_exp M E))%Z by (apply Z.pow_pos_nonneg; lia).
    split; [nia|]. split; [lia|]. split; [lia|].
    rewrite dy_shift by lia. unfold dy.
    replace (rnd_exp M E + (E - rnd_exp M E))%Z with E by lia. reflexivity. }
  destruct (rnd_exp M E - E)%Z as [|p|p] eqn:Ek.
  - cbn [shr shr_m loc_of_shr_record round_nearest_even]. apply Hex. lia.
  - pose proof (shr_round M E p ltac:(lia)) as Hs.
    destruct (shr (Build_shr_record M false false) E (Z.pos p)) as [mrs e1].
    destruct Hs as [He Hr]. cbv zeta. rewrite Hr.
    assert (Em : rne M (Z.pos p) = rnd_mant M E).
    { unfold rnd_mant, rgrid. destruct (Z.leb_spec (rnd_exp M E) E); [lia|].
      now rewrite Ek. }
    assert (Ee : e1 = rnd_exp M E) by lia.
    rewrite Em, Ee. split; [lia|]. split; [lia|]. split; [lia|reflexivity].
  - cbn [shr shr_m loc_of_shr_record round_nearest_even]. apply Hex. lia.
Qed.

(** [binary_round_aux] computes [rnd]. *)
Lemma binary_round_aux_rnd s M E :
  (0 < M)%Z -> (mag M E <= 971)%Z ->
  exists m e,
    binary_round_aux prec emax s M E loc_Exact = packed s m e
    /\ (0 <= m)%Z /\ dy m e == rnd M E.
Proof.
  intros HM Hmag.
  pose proof (Zdigits2_pos M HM) as Hd.
  assert (Hgu : (rnd_exp M E <= 918)%Z)
    by (unfold rnd_exp; rewrite fexp_eq; lia).
  unfold binary_round_aux.
  pose proof (first_shift M E HM) as H1.
  destruct (shr_fexp prec emax M E loc_Exact) as [mrs e1].
  cbv zeta in H1. destruct H1 as (Hm1 & He1 & Hu1 & Hv1).
  set (m1 := round_nearest_even (shr_m mrs) (loc_of_shr_record mrs)) in *.
  destruct (Z.eq_dec m1 0) as [E0|N0].
  - rewrite E0, renormalise_0 by assumption. cbn [shr_m].
    exists 0%Z, e1. split; [reflexivity|]. split; [lia|].
    rewrite <- Hv1, E0. reflexivity.
  - pose proof (renormalise m1 e1 ltac:(lia) He1) as Hre.
    destruct (shr_fexp prec emax m1 e1 loc_Exact) as [mrs2 e2].
    destruct Hre as (Hpos & Hv & He2).
    exists (shr_m mrs2), e2.
    destruct (shr_m mrs2) as [|q|q]; try lia.
    replace (e2 <=? emax - prec)%Z with true
      by (symmetry; apply Z.leb_le; unfold emax, prec, mag in *; lia).
    split; [reflexivity|]. split; [lia|]. rewrite Hv. exact Hv1.
Qed.

End Round.

(** ** Conversions and products of binary64 values *)

Section Values.

Local Open Scope Q_scope.

Lemma dy_mul m1 e1 m2 e2 : dy (m1 * m2) (e1 + e2) == dy m1 e1 * dy m2 e2.
Proof. unfold dy. rewrite inject_Z_mult, two_pow_add. ring. Qed.

Lemma mag_le M E n : (0 < M)%Z -> dy M E < dy 1 n -> (mag M E <= n)%Z.
Proof.
  intros HM H.
  destruct (Z_le_gt_dec (mag M E) n) as [|Hgt]; [assumption|exfalso].
  pose proof (dy_mag_bounds M E HM) as [L _].
  assert (dy 1 n <= dy 1 (mag M E - 1)) by (apply dy_1_le; lia).
  apply (Qlt_irrefl (dy M E)).
  eapply Qlt_le_trans; [exact H|]. eapply Qle_trans; eassumption.
Qed.

Lemma dy_1_pow n : (0 <= n)%Z -> dy 1 n == inject_Z (2 ^ n).
Proof.
  intros Hn. rewrite <- dy_Z. replace n with (0 + n)%Z at 1 by lia.
  rewrite <- dy_shift by lia. now rewrite Z.mul_1_l.
Qed.

(** Dropping the fractional part of a non-negative dyadic number. *)
Lemma shiftl_floor m e : (0 <= m)%Z -> Z.shiftl m e = Qfloor (dy m e).
Proof.
  intros Hm. destruct (Z_le_gt_dec 0 e) as [He|He].
  - rewrite Z.shiftl_mul_pow2 by assumption.
    rewrite <- (Qfloor_Z (m * 2 ^ e)). apply Qfloor_comp.
    rewrite <- dy_Z, dy_shift by assumption. now rewrite Z.add_0_l.
  - replace e with (- (- e))%Z at 1 by lia.
    rewrite Z.shiftl_opp_r, Z.shiftr_div_pow2 by lia.
    rewrite Zdiv_Qdiv. apply Qfloor_comp.
    unfold dy. rewrite <- two_pow_Z by lia.
    assert (P : 0 < 2 ^ (- e)) by apply two_pow_pos.
    assert (Q1 : (2:Q) ^ e * 2 ^ (- e) == 1).
    { rewrite <- two_pow_add. replace (e + - e)%Z with 0%Z by lia. reflexivity. }
    assert (Hb : ~ (2:Q) ^ (- e) == 0)
      by (intros Hz; rewrite Hz in P; now apply Qlt_irrefl in P).
    setoid_replace (inject_Z m * 2 ^ e)
      with (inject_Z m * (2 ^ e * 2 ^ (- e)) / 2 ^ (- e)) by (field; exact Hb).
    rewrite Q1. field. exact Hb.
Qed.

Lemma shl_align_value mx ex ex' :
  let '(mz, ez) := shl_align mx ex ex' in
  dy (Zpos mz) ez == dy (Zpos mx) ex.
Proof.
  unfold shl_align. destruct (ex' - ex)%Z as [|d|d] eqn:Ed; try reflexivity.
  change (Pos.iter xO mx d) with (shift_pos d mx).
  rewrite shift_pos_correct, Zpower_pos_nat, <- positive_nat_Z.
  rewrite Zpower_nat_Z, Z.mul_comm, dy_shift by lia.
  rewrite positive_nat_Z. replace (ex' + Z.pos d)%Z with ex by lia. reflexivity.
Qed.

(** An integer below [2^53] is converted without rounding. *)
Lemma of_int_exact D :
  (0 < D < 2 ^ 53)%Z ->
  exists md ed, of_int D = S754_finite false md ed
                /\ dy (Zpos md) ed == inject_Z D.
Proof.
  intros [H0 H1]. destruct D as [|p|p]; try lia.
  unfold of_int, binary_normalize, binary_round.
  pose proof (shl_align_value p 0 (fexp prec emax (Z.pos (digits2_pos p) + 0))) as Hv.
  destruct (shl_align p 0 (fexp prec emax (Z.pos (digits2_pos p) + 0))) as [mz ez].
  rewrite dy_Z in Hv.
  assert (Hlt : dy (Zpos mz) ez < dy 1 53).
  { rewrite Hv, dy_1_pow by lia. now rewrite <- Zlt_Qlt. }
  pose proof (mag_le (Zpos mz) ez 53 ltac:(lia) Hlt) as Hmag.
  destruct (binary_round_aux_rnd false (Zpos mz) ez ltac:(lia) ltac:(lia))
    as (m & e & Hr & Hm & Hd).
  assert (Hg : (rnd_exp (Zpos mz) ez <= 0)%Z)
    by (unfold rnd_exp; rewrite fexp_eq; lia).
  assert (Hrnd : rnd (Zpos mz) ez == inject_Z (Zpos p)).
  { rewrite <- dy_Z. apply Qle_antisym.
    - apply rnd_le_point; [assumption|]. rewrite Hv, dy_Z. apply Qle_refl.
    - apply rnd_ge_point; [assumption|]. rewrite Hv, dy_Z. apply Qle_refl. }
  rewrite Hr. destruct m as [|q|q]; try lia.
  - exfalso. rewrite dy_0, Hrnd in Hd. discriminate Hd.
  - exists q, e. split; [reflexivity|]. now rewrite Hd.
Qed.

(** The product of two positive binary64 values whose exact product stays
    below [2^53]: the exact product rounded to nearest. *)
Lemma mul_rnd m e md ed :
  dy (Zpos m * Zpos md) (e + ed) < dy 1 53 ->
  exists m2 e2,
    mul (S754_finite false m e) (S754_finite false md ed) = packed false m2 e2
    /\ (0 <= m2)%Z /\ dy m2 e2 == rnd (Zpos m * Zpos md) (e + ed).
Proof.
  intros Hlt. unfold mul, SFmul. cbn [xorb].
  rewrite Pos2Z.inj_mul.
  apply binary_round_aux_rnd; [lia|].
  pose proof (mag_le (Zpos m * Zpos md) (e + ed) 53 ltac:(lia) Hlt). lia.
Qed.

Lemma astype_int_packed m e :
  (0 <= m)%Z -> dy m e < dy 1 63 ->
  astype_int (packed false m e) = Qfloor (dy m e).
Proof.
  intros Hm Hlt. destruct m as [|p|p]; try lia.
  - cbn [packed astype_int]. rewrite dy_0. reflexivity.
  - cbn [packed astype_int cond_Zopp]. rewrite shiftl_floor by lia.
    assert (H0 : (0 <= Qfloor (dy (Zpos p) e))%Z).
    { rewrite <- (Qfloor_Z 0). apply Qfloor_resp_le. apply dy_nonneg. lia. }
    assert (H1 : (Qfloor (dy (Zpos p) e) < 2 ^ 63)%Z).
    { rewrite Zlt_Qlt. eapply Qle_lt_trans; [apply Qfloor_le|].
      rewrite <- dy_1_pow by lia. exact Hlt. }
    unfold INT64_MIN, INT64_MAX.
    destruct (Z.leb_spec (- 2 ^ 63) (Qfloor (dy (Z.pos p) e))); [|lia].
    destruct (Z.leb_spec (Qfloor (dy (Z.pos p) e)) (2 ^ 63 - 1)); [|lia].
    reflexivity.
Qed.

End Values.

(** ** Canonical mantissas and the order *)

Section Order.

Local Open Scope Q_scope.

Lemma valid_finite s m e :
  valid (S754_finite s m e) = true ->
  (e = Z.max (Zdigits2 (Zpos m) + e - 53) (-1074))%Z /\ (e <= 971)%Z.
Proof.
  unfold valid, valid_binary, bounded, canonical_mantissa.
  rewrite fexp_eq. intros H. apply andb_prop in H as [H1 H2].
  apply Z.eqb_eq in H1. apply Z.leb_le in H2.
  cbn [Zdigits2]. unfold emax, prec in H2. lia.
Qed.

Lemma canonical_exp_lt m1 e1 m2 e2 :
  valid (S754_finite false m1 e1) = true ->
  valid (S754_finite false m2 e2) = true ->
  (e1 < e2)%Z -> dy (Zpos m1) e1 < dy (Zpos m2) e2.
Proof.
  intros V1 V2 Hlt.
  apply valid_finite in V1 as [C1 _]. apply valid_finite in V2 as [C2 _].
  assert (D1 : (Zdigits2 (Zpos m1) <= 53)%Z) by lia.
  assert (D2 : (Zdigits2 (Zpos m2) = 53)%Z) by lia.
  pose proof (Zdigits2_bounds (Zpos m1) ltac:(lia)) as [_ U1].
  pose proof (Zdigits2_bounds (Zpos m2) ltac:(lia)) as [L2 _].
  rewrite D2 in L2.
  assert (P : (2 ^ Zdigits2 (Zpos m1) <= 2 ^ 53)%Z)
    by (apply Z.pow_le_mono_r; lia).
  apply Qlt_le_trans with (dy (2 ^ 53) e1); [apply dy_lt; lia|].
  apply Qle_trans with (dy (2 ^ 52) e2); [|apply dy_le; exact L2].
  assert (S1 : dy (2 ^ 53) e1 == dy 1 (e1 + 53))
    by (rewrite <- dy_shift by lia; now rewrite Z.mul_1_l).
  assert (S2 : dy (2 ^ 52) e2 == dy 1 (e2 + 52))
    by (rewrite <- dy_shift by lia; now rewrite Z.mul_1_l).
  rewrite S1, S2. apply dy_1_le. lia.
Qed.

(** On canonical values, [SFcompare] is the order of the rationals. *)
Lemma compare_canonical m1 e1 m2 e2 :
  valid (S754_finite false m1 e1) = true ->
  valid (S754_finite false m2 e2) = true ->
  match SFcompare (S754_finite false m1 e1) (S754_finite false m2 e2) with
  | Some Lt => dy (Zpos m1) e1 < dy (Zpos m2) e2
  | Some Eq => m1 = m2 /\ e1 = e2
  | Some Gt => dy (Zpos m2) e2 < dy (Zpos m1) e1
  | None => False
  end.
Proof.
  intros V1 V2. cbn [SFcompare].
  destruct (Z.compare_spec e1 e2) as [E|L|G].
  - subst e2. change (Pos.compare_cont Eq m1 m2) with (Pos.compare m1 m2).
    destruct (Pos.compare_spec m1 m2) as [Em|Lm|Gm].
    + now split.
    + apply dy_lt. lia.
    + apply dy_lt. lia.
  - now apply canonical_exp_lt.
  - apply canonical_exp_lt; [assumption..|lia].
Qed.

End Order.

(** ** Clamping *)

Section Clamp.

Local Open Scope Q_scope.

Lemma of_int_0 : of_int 0 = S754_zero false.
Proof. reflexivity. Qed.

Lemma of_int_1 : of_int 1 = S754_finite false 4503599627370496 (-52).
Proof. vm_compute. reflexivity. Qed.

Lemma valid_1 : valid (S754_finite false 4503599627370496 (-52)) = true.
Proof. vm_compute. reflexivity. Qed.

Lemma dy_one : dy (Zpos 4503599627370496) (-52) == 1.
Proof. vm_compute. reflexivity. Qed.

Lemma SFcompare_antisym m1 e1 m2 e2 :
  SFcompare (S754_finite false m2 e2) (S754_finite false m1 e1)
  = option_map CompOpp
      (SFcompare (S754_finite false m1 e1) (S754_finite false m2 e2)).
Proof.
  cbn [SFcompare option_map]. rewrite (Z.compare_antisym e1 e2).
  destruct (e1 ?= e2)%Z; cbn [CompOpp]; try reflexivity.
  f_equal. now rewrite Pos.compare_cont_antisym.
Qed.

(** [np.clip(x, 0, 1)] is the clamping of the spec, on every value. *)
Lemma np_clip_clamp01 c : np_clip c (of_int 0) (of_int 1) = clamp01 c.
Proof.
  unfold np_clip, clamp01, clip_min, clip_max, ltb, leb, SFltb, SFleb.
  rewrite of_int_0, of_int_1.
  destruct c as [[|]|[|]| |[|] m e]; try reflexivity.
  cbn [is_nan]. change (SFcompare (S754_zero false) (S754_finite false m e))
    with (Some Lt).
  change (SFcompare (S754_finite false m e) (S754_zero false)) with (Some Gt).
  cbv iota. cbn [is_nan].
  rewrite (SFcompare_antisym m e).
  destruct (SFcompare (S754_finite false m e) _) as [[| |]|] eqn:Ec;
    cbn [option_map CompOpp]; try reflexivity.
  discriminate Ec.
Qed.

Lemma clamp01_form c :
  valid c = true -> is_nan c = false -> unit_form (clamp01 c).
Proof.
  intros V N. unfold clamp01, leb, SFleb. rewrite of_int_0, of_int_1.
  destruct c as [s|s| |s m e]; try discriminate N.
  - left. now destruct s.
  - destruct s; [now left|]. right. do 2 eexists. split; [reflexivity|].
    rewrite dy_one. apply Qle_refl.
  - destruct s; [now left|].
    change (SFcompare (S754_finite false m e) (S754_zero false)) with (Some Gt).
    cbv iota.
    pose proof (compare_canonical _ _ _ _ valid_1 V) as Hc.
    destruct (SFcompare _ (S754_finite false m e)) as [[| |]|];
      right; do 2 eexists; (split; [reflexivity|]).
    + rewrite dy_one. apply Qle_refl.
    + rewrite dy_one. apply Qle_refl.
    + rewrite dy_one in Hc. now apply Qlt_le_weak.
    + contradiction.
Qed.

Lemma unit_form_range x : unit_form x -> 0 <= to_Q x <= 1.
Proof.
  intros [->|(m & e & -> & H)]; cbn [to_Q cond_Zopp].
  - split; discriminate.
  - split; [apply dy_nonneg; lia|exact H].
Qed.

(** A valid coordinate between 0 and 1 is its own clamping, up to the sign
    of zero. *)
Lemma clamp01_unit c :
  valid c = true -> leb (of_int 0) c = true -> leb c (of_int 1) = true ->
  (exists s, c = S754_zero s /\ clamp01 c = S754_zero false)
  \/ (exists m e, c = S754_finite false m e /\ clamp01 c = c
                  /\ dy (Zpos m) e <= 1).
Proof.
  intros V H0 H1. unfold clamp01. unfold leb, SFleb in *.
  rewrite of_int_0, of_int_1 in *.
  destruct c as [s|s| |s m e].
  - left. exists s. now destruct s.
  - destruct s; discriminate.
  - discriminate.
  - destruct s; [discriminate|]. right. exists m, e.
    change (SFcompare (S754_finite false m e) (S754_zero false)) with (Some Gt).
    cbv iota.
    pose proof (compare_canonical _ _ _ _ V valid_1) as Hc.
    rewrite (SFcompare_antisym m e).
    destruct (SFcompare (S754_finite false m e) _) as [[| |]|];
      cbn [option_map CompOpp]; try discriminate.
    + destruct Hc as [-> ->]. repeat split. rewrite dy_one. apply Qle_refl.
    + repeat split. rewrite dy_one in Hc. now apply Qlt_le_weak.
Qed.

Lemma clamp01_pos m e :
  valid (S754_finite false m e) = true ->
  (dy (Zpos m) e < 1 /\ clamp01 (S754_finite false m e) = S754_finite false m e)
  \/ (1 <= dy (Zpos m) e /\ clamp01 (S754_finite false m e) = of_int 1).
Proof.
  intros V. unfold clamp01, leb, SFleb. rewrite of_int_0, of_int_1.
  change (SFcompare (S754_finite false m e) (S754_zero false)) with (Some Gt).
  cbv iota.
  pose proof (compare_canonical _ _ _ _ valid_1 V) as Hc.
  destruct (SFcompare _ (S754_finite false m e)) as [[| |]|].
  - right. destruct Hc as [<- <-]. split; [|reflexivity].
    rewrite dy_one. apply Qle_refl.
  - right. rewrite dy_one in Hc. split; [|reflexivity]. now apply Qlt_le_weak.
  - left. rewrite dy_one in Hc. now split.
  - contradiction.
Qed.

Lemma to_Q_1 : to_Q (of_int 1) == 1.
Proof. rewrite of_int_1. cbn [to_Q cond_Zopp]. apply dy_one. Qed.

(** Clamping is monotone. *)
Lemma clamp01_mono c1 c2 :
  valid c1 = true -> valid c2 = true -> leb c1 c2 = true ->
  to_Q (clamp01 c1) <= to_Q (clamp01 c2).
Proof.
  intros V1 V2 L.
  assert (N1 : is_nan c1 = false) by (now destruct c1).
  assert (N2 : is_nan c2 = false) by (now destruct c1, c2).
  pose proof (unit_form_range _ (clamp01_form c1 V1 N1)) as [L1 U1].
  pose proof (unit_form_range _ (clamp01_form c2 V2 N2)) as [L2 U2].
  assert (Z0 : forall x, clamp01 x = S754_zero false ->
                         to_Q (clamp01 x) <= to_Q (clamp01 c2))
    by (intros x ->; exact L2).
  destruct c1 as [[|]|[|]| |[|] m1 e1]; try discriminate N1;
    try (apply Z0; reflexivity).
  - (* +infinity *)
    destruct c2 as [[|]|[|]| |[|] m2 e2]; try discriminate L. apply Qle_refl.
  - (* a positive number *)
    destruct c2 as [[|]|[|]| |[|] m2 e2]; try discriminate L.
    + change (clamp01 (S754_infinity false)) with (of_int 1).
      rewrite to_Q_1. exact U1.
    + pose proof (compare_canonical _ _ _ _ V1 V2) as H12.
      assert (Hv : dy (Zpos m1) e1 <= dy (Zpos m2) e2).
      { unfold leb, SFleb in L.
        destruct (SFcompare (S754_finite false m1 e1) (S754_finite false m2 e2))
          as [[| |]|]; try discriminate L.
        - destruct H12 as [-> ->]. apply Qle_refl.
        - now apply Qlt_le_weak. }
      destruct (clamp01_pos m1 e1 V1) as [[A1 ->]|[A1 ->]],
               (clamp01_pos m2 e2 V2) as [[A2 ->]|[A2 ->]];
        rewrite ?to_Q_1; cbn [to_Q cond_Zopp].
      * exact Hv.
      * now apply Qlt_le_weak.
      * exfalso. apply (Qlt_irrefl 1).
        eapply Qle_lt_trans; [exact A1|]. eapply Qle_lt_trans; eassumption.
      * apply Qle_refl.
Qed.

End Clamp.

(** ** Scaling a clamped coordinate *)

Section Scale.

Local Open Scope Q_scope.

Lemma scale_trunc_zero D :
  (0 <= D < 2 ^ 53)%Z -> scale_trunc (S754_zero false) D = 0%Z.
Proof.
  intros HD. unfold scale_trunc.
  destruct (Z.eq_dec D 0) as [->|N]; [reflexivity|].
  destruct (of_int_exact D ltac:(lia)) as (md & ed & -> & _). reflexivity.
Qed.

Lemma scale_trunc_dim_0 x : unit_form x -> scale_trunc x 0 = 0%Z.
Proof. intros [->|(m & e & -> & _)]; reflexivity. Qed.

(** The product of a positive clamped coordinate and a frame dimension. *)
Lemma scale_trunc_pos m e D md ed :
  of_int D = S754_finite false md ed -> dy (Zpos md) ed == inject_Z D ->
  dy (Zpos m) e <= 1 -> (0 < D < 2 ^ 53)%Z ->
  let r := rnd (Zpos m * Zpos md) (e + ed) in
  scale_trunc (S754_finite false m e) D = Qfloor r
  /\ to_Q (mul (S754_finite false m e) (of_int D)) == r
  /\ 0 <= r <= inject_Z D
  /\ (rnd_exp (Zpos m * Zpos md) (e + ed) <= 0)%Z.
Proof.
  intros EO ED Hc HD r.
  assert (Hp : dy (Zpos m * Zpos md) (e + ed) <= inject_Z D).
  { rewrite dy_mul, ED. rewrite <- (Qmult_1_l (inject_Z D)) at 2.
    apply Qmult_le_compat_r; [exact Hc|].
    change 0 with (inject_Z 0). rewrite <- Zle_Qle. lia. }
  assert (Hlt : dy (Zpos m * Zpos md) (e + ed) < dy 1 53).
  { eapply Qle_lt_trans; [exact Hp|]. rewrite dy_1_pow by lia.
    rewrite <- Zlt_Qlt. lia. }
  pose proof (mag_le (Zpos m * Zpos md) (e + ed) 53 ltac:(lia) Hlt) as Hmag.
  assert (Hg : (rnd_exp (Zpos m * Zpos md) (e + ed) <= 0)%Z)
    by (unfold rnd_exp; rewrite fexp_eq; lia).
  assert (Hr : 0 <= r <= inject_Z D).
  { split; [apply rnd_nonneg; lia|]. rewrite <- dy_Z.
    apply rnd_le_point; [exact Hg|]. now rewrite dy_Z. }
  destruct (mul_rnd m e md ed Hlt) as (m2 & e2 & Em & Hm2 & Hv).
  unfold scale_trunc. rewrite EO, Em.
  assert (Hq : to_Q (packed false m2 e2) == dy m2 e2).
  { destruct m2 as [|q|q]; try lia; cbn [packed to_Q cond_Zopp];
      [now rewrite dy_0|reflexivity]. }
  split; [|split; [now rewrite Hq|split; assumption]].
  rewrite astype_int_packed; [now apply Qfloor_comp|assumption|].
  rewrite Hv. eapply Qle_lt_trans; [apply Hr|].
  rewrite dy_1_pow by lia. rewrite <- Zlt_Qlt. lia.
Qed.

Lemma scale_trunc_range x D :
  unit_form x -> (0 <= D < 2 ^ 53)%Z -> (0 <= scale_trunc x D <= D)%Z.
Proof.
  intros Hx HD. destruct (Z.eq_dec D 0) as [->|N].
  - rewrite scale_trunc_dim_0 by assumption. lia.
  - destruct Hx as [->|(m & e & -> & Hc)].
    + rewrite scale_trunc_zero by lia. lia.
    + destruct (of_int_exact D ltac:(lia)) as (md & ed & EO & ED).
      destruct (scale_trunc_pos m e D md ed EO ED Hc ltac:(lia))
        as (-> & _ & [R0 R1] & _).
      split.
      * rewrite <- (Qfloor_Z 0). now apply Qfloor_resp_le.
      * rewrite <- (Qfloor_Z D). now apply Qfloor_resp_le.
Qed.

(** Scaling and truncating is monotone in the coordinate. *)
Lemma scale_trunc_mono x1 x2 D :
  unit_form x1 -> unit_form x2 -> to_Q x1 <= to_Q x2 ->
  (0 <= D < 2 ^ 53)%Z -> (scale_trunc x1 D <= scale_trunc x2 D)%Z.
Proof.
  intros H1 H2 Hle HD. destruct (Z.eq_dec D 0) as [->|N].
  - rewrite !scale_trunc_dim_0 by assumption. lia.
  - pose proof (scale_trunc_range x2 D H2 HD) as R2.
    destruct H1 as [->|(m1 & e1 & -> & Hc1)].
    + rewrite scale_trunc_zero by lia. lia.
    + destruct H2 as [->|(m2 & e2 & -> & Hc2)].
      * exfalso. cbn [to_Q cond_Zopp] in Hle.
        apply (Qlt_irrefl 0). eapply Qlt_le_trans; [|exact Hle].
        rewrite <- (dy_0 e1). apply dy_lt. lia.
      * destruct (of_int_exact D ltac:(lia)) as (md & ed & EO & ED).
        destruct (scale_trunc_pos m1 e1 D md ed EO ED Hc1 ltac:(lia))
          as (-> & _).
        destruct (scale_trunc_pos m2 e2 D md ed EO ED Hc2 ltac:(lia))
          as (-> & _).
        apply Qfloor_resp_le. apply rnd_mono; try lia.
        rewrite !dy_mul. apply Qmult_le_compat_r; [exact Hle|].
        apply dy_nonneg. lia.
Qed.

(** The result is the floor of the exact product, or one more. *)
Lemma scale_trunc_near x d :
  unit_form x -> (0 < d < 2 ^ 53)%Z ->
  (Qfloor (to_Q x * inject_Z d) <= scale_trunc x d
   <= Qfloor (to_Q x * inject_Z d) + 1)%Z.
Proof.
  intros [->|(m & e & -> & Hc)] Hd.
  - rewrite scale_trunc_zero by lia. cbn [to_Q].
    rewrite (Qfloor_comp _ 0) by apply Qmult_0_l. cbn. lia.
  - destruct (of_int_exact d Hd) as (md & ed & EO & ED).
    destruct (scale_trunc_pos m e d md ed EO ED Hc Hd) as (-> & _ & _ & Hg).
    cbn [to_Q cond_Zopp].
    assert (Ex : dy (Zpos m * Zpos md) (e + ed) == dy (Zpos m) e * inject_Z d)
      by (rewrite dy_mul, ED; reflexivity).
    set (x := dy (Zpos m) e * inject_Z d) in *.
    split.
    + rewrite <- (Qfloor_Z (Qfloor x)) at 1. apply Qfloor_resp_le.
      rewrite <- dy_Z. apply rnd_ge_point; [exact Hg|].
      rewrite dy_Z, Ex. apply Qfloor_le.
    + rewrite <- (Qfloor_Z (Qfloor x + 1)). apply Qfloor_resp_le.
      rewrite <- dy_Z. apply rnd_le_point; [exact Hg|].
      rewrite dy_Z, Ex. apply Qlt_le_weak. apply Qlt_floor.
Qed.

(** A single-precision coordinate times a dimension below [2^29] has at
    most 53 significant bits: binary64 computes the product exactly. *)
Lemma scale_trunc_exact32 x d :
  unit_form x -> binary32 x -> (0 < d < 2 ^ 29)%Z ->
  scale_trunc x d = Qfloor (to_Q x * inject_Z d).
Proof.
  intros [->|(m & e & -> & Hc)] (m' & e' & Hm' & He' & E32) Hd.
  - rewrite scale_trunc_zero by lia. cbn [to_Q].
    rewrite (Qfloor_comp _ 0) by apply Qmult_0_l. reflexivity.
  - assert (Hd53 : (0 < d < 2 ^ 53)%Z) by lia.
    destruct (of_int_exact d Hd53) as (md & ed & EO & ED).
    destruct (scale_trunc_pos m e d md ed EO ED Hc Hd53) as (-> & _ & _ & _).
    cbn [to_Q cond_Zopp] in *. apply Qfloor_comp.
    assert (Ex : dy (Zpos m * Zpos md) (e + ed) == dy (m' * d) e').
    { rewrite dy_mul, ED, E32. unfold dy. rewrite inject_Z_mult. ring. }
    assert (Hb : (m' * d < 2 ^ 53)%Z).
    { change (2 ^ 53)%Z with (2 ^ 24 * 2 ^ 29)%Z. nia. }
    assert (Hlt : dy (Zpos m * Zpos md) (e + ed) < dy 1 (e' + 53)).
    { rewrite Ex, <- dy_shift by lia. apply dy_lt. lia. }
    pose proof (mag_le (Zpos m * Zpos md) (e + ed) (e' + 53) ltac:(lia) Hlt)
      as Hmag.
    assert (Hg : (rnd_exp (Zpos m * Zpos md) (e + ed) <= e')%Z)
      by (unfold rnd_exp; rewrite fexp_eq; lia).
    rewrite E32.
    setoid_replace (dy m' e' * inject_Z d) with (dy (m' * d) e')
      by (unfold dy; rewrite inject_Z_mult; ring).
    apply Qle_antisym.
    + apply rnd_le_point; [exact Hg|]. rewrite Ex. apply Qle_refl.
    + apply rnd_ge_point; [exact Hg|]. rewrite Ex. apply Qle_refl.
Qed.

End Scale.

(** ** denormalize *)

Lemma denormalize_eq c d : denormalize c d = scale_trunc (clamp01 c) d.
Proof. unfold denormalize, scale_trunc. now rewrite np_clip_clamp01. Qed.

Lemma frameNorm_4 frame x0 y0 x1 y1 :
  frameNorm frame [x0; y0; x1; y1]
  = [denormalize x0 (shape1 frame); denormalize y0 (shape0 frame);
     denormalize x1 (shape1 frame); denormalize y1 (shape0 frame)].
Proof. reflexivity. Qed.

(** C1, as stated, fails: the coordinate 0.7 lies in [0, 1] and the frame
    dimension 300 is positive, the floor of their product is 209 (the
    binary64 value of 0.7 is below 7/10), and [denormalize] returns 210,
    because binary64 rounds the product up to 210.0 before the
    truncation. *)
Lemma denormalize_not_exact_floor :
  valid (f64 0.7) = true
  /\ leb (of_int 0) (f64 0.7) = true /\ leb (f64 0.7) (of_int 1) = true
  /\ denormalize (f64 0.7) 300 = 210
  /\ Qfloor (to_Q (f64 0.7) * inject_Z 300) = 209
  /\ nth 0 (frameNorm frame300 [f64 0.7; f64 0.7; f64 0.7; f64 0.7]) 0 = 210.
Proof. repeat split; vm_compute; reflexivity. Qed.

(** C1, amended: [frameNorm] applies [denormalize] to each cell, and for a
    coordinate [c] between 0 and 1 and a positive frame dimension [d]
    (below [2^53], so that [d] is a binary64 value) [denormalize] returns
    the floor of the product [c * d] as binary64 computes it, a number
    between 0 and [d]; it is the floor of the exact product or that floor
    plus one, and it is the floor of the exact product whenever [c] is a
    single-precision value and [d] is below [2^29]. *)
Theorem denormalize_floor (c : float64) (d : Z) :
  valid c = true ->
  leb (of_int 0) c = true -> leb c (of_int 1) = true ->
  0 < d < 2 ^ 53 ->
  (forall frame x0 y0 x1 y1,
      frameNorm frame [x0; y0; x1; y1]
      = [denormalize x0 (shape1 frame); denormalize y0 (shape0 frame);
         denormalize x1 (shape1 frame); denormalize y1 (shape0 frame)])
  /\ (to_Q (of_int d) == inject_Z d)%Q
  /\ denormalize c d = Qfloor (to_Q (mul c (of_int d)))
  /\ 0 <= denormalize c d <= d
  /\ Qfloor (to_Q c * inject_Z d) <= denormalize c d
     <= Qfloor (to_Q c * inject_Z d) + 1
  /\ (binary32 c -> d < 2 ^ 29 ->
      denormalize c d = Qfloor (to_Q c * inject_Z d)).
Proof.
  intros V H0 H1 Hd.
  destruct (of_int_exact d Hd) as (md & ed & EO & ED).
  split; [exact frameNorm_4|].
  split; [rewrite EO; exact ED|].
  rewrite denormalize_eq.
  destruct (clamp01_unit c V H0 H1) as [(s & -> & ->)|(m & e & -> & -> & Hc)].
  - rewrite scale_trunc_zero by lia. rewrite EO.
    cbn [mul SFmul to_Q].
    assert (Z0 : Qfloor (0 * inject_Z d) = 0)
      by (now rewrite (Qfloor_comp (0 * inject_Z d) 0) by apply Qmult_0_l).
    rewrite Z0. cbn. repeat split; lia.
  - assert (U : unit_form (S754_finite false m e))
      by (right; exists m, e; now split).
    destruct (scale_trunc_pos m e d md ed EO ED Hc Hd) as (E & Hv & [R0 R1] & _).
    split; [rewrite E; symmetry; now apply Qfloor_comp|].
    split; [now apply scale_trunc_range; [|lia]|].
    split; [now apply scale_trunc_near|].
    intros B Hd29. apply scale_trunc_exact32; [exact U|exact B|lia].
Qed.

Lemma denormalize_floor_witness :
  denormalize (f64 0.7) 300 = Qfloor (to_Q (mul (f64 0.7) (of_int 300)))
  /\ 0 <= denormalize (f64 0.7) 300 <= 300
  /\ Qfloor (to_Q (f64 0.7) * inject_Z 300) <= denormalize (f64 0.7) 300
     <= Qfloor (to_Q (f64 0.7) * inject_Z 300) + 1
  /\ denormalize (f64 0x1.99999ap-4) 300
     = Qfloor (to_Q (f64 0x1.99999ap-4) * inject_Z 300).
Proof.
  destruct (denormalize_floor (f64 0.7) 300) as (_ & _ & H1 & H2 & H3 & _).
  - vm_compute. reflexivity.
  - vm_compute. reflexivity.
  - vm_compute. reflexivity.
  - lia.
  - destruct (denormalize_floor (f64 0x1.99999ap-4) 300)
      as (_ & _ & _ & _ & _ & H4).
    + vm_compute. reflexivity.
    + vm_compute. reflexivity.
    + vm_compute. reflexivity.
    + lia.
    + split; [exact H1|]. split; [exact H2|]. split; [exact H3|].
      apply H4; [|lia].
      exists 13421773, (-27). split; [lia|]. split; [lia|].
      vm_compute. reflexivity.
Defined.

Lemma astype_int_trunc s m e :
  INT64_MIN <= Qtrunc (to_Q (S754_finite s m e)) <= INT64_MAX ->
  astype_int (S754_finite s m e) = Qtrunc (to_Q (S754_finite s m e)).
Proof.
  assert (E : cond_Zopp s (Z.shiftl (Zpos m) e)
              = Qtrunc (to_Q (S754_finite s m e))).
  { rewrite shiftl_floor by lia. unfold Qtrunc. cbn [to_Q].
    destruct s; cbn [cond_Zopp].
    - assert (Hneg : (dy (- Zpos m) e < 0)%Q)
        by (rewrite <- (dy_0 e); apply dy_lt; lia).
      destruct (Qle_bool 0 (dy (- Zpos m) e)) eqn:Eb.
      + apply Qle_bool_iff in Eb. exfalso. apply (Qlt_irrefl 0%Q).
        eapply Qle_lt_trans; eassumption.
      + unfold Qceiling. f_equal. apply Qfloor_comp. unfold dy.
        rewrite inject_Z_opp. ring.
    - assert (Hpos : (0 <= dy (Zpos m) e)%Q) by (apply dy_nonneg; lia).
      apply Qle_bool_iff in Hpos. now rewrite Hpos. }
  intros [H0 H1]. cbn [astype_int]. rewrite E.
  destruct (Z.leb_spec INT64_MIN (Qtrunc (to_Q (S754_finite s m e)))); [|lia].
  destruct (Z.leb_spec (Qtrunc (to_Q (S754_finite s m e))) INT64_MAX); [|lia].
  reflexivity.
Qed.

(** C2, as stated, fails on a quadruple that holds a NaN: [np.clip] hands
    a NaN back as it is, so that coordinate is not brought into [0, 1], and
    its product with the frame dimension is a NaN again.  And what is
    truncated is the product rounded to binary64: for the coordinate 0.7
    on a 300 x 300 frame every cell is 210, while the product of that
    coordinate and 300 truncates to 209. *)
Lemma frameNorm_quadruple_fails :
  frameNorm frame300 [f64 0.7; f64 0.7; f64 0.7; f64 0.7] = [210; 210; 210; 210]
  /\ Qtrunc (to_Q (f64 0.7) * inject_Z 300) = 209
  /\ np_clip S754_nan (of_int 0) (of_int 1) = S754_nan
  /\ leb (of_int 0) (np_clip S754_nan (of_int 0) (of_int 1)) = false
  /\ leb (np_clip S754_nan (of_int 0) (of_int 1)) (of_int 1) = false
  /\ mul (np_clip S754_nan (of_int 0) (of_int 1)) (of_int 300) = S754_nan
  /\ ~ (forall c, leb (of_int 0) (np_clip c (of_int 0) (of_int 1)) = true
                  /\ leb (np_clip c (of_int 0) (of_int 1)) (of_int 1) = true).
Proof.
  split; [vm_compute; reflexivity|]. split; [vm_compute; reflexivity|].
  split; [reflexivity|]. split; [reflexivity|]. split; [reflexivity|].
  split; [reflexivity|].
  intros H. destruct (H S754_nan) as [H0 _]. discriminate H0.
Qed.

(** C2, amended: on a quadruple (xmin, ymin, xmax, ymax), [frameNorm]
    scales the clamped positions 0 and 2 by the frame width [shape1] and
    the clamped positions 1 and 3 by the frame height [shape0].  The
    clamping is [np.clip]; it yields a value of [0, 1] for every coordinate
    that is a number and leaves a NaN as it is.  For a number the integer
    returned is the floor of the exact product of the clamped coordinate
    and the dimension, or that floor plus one (the product is rounded to
    binary64 before the truncation), and the floor itself for a
    single-precision coordinate and a dimension below [2^29].  The
    conversion to an integer drops the fractional part, whatever the
    sign. *)
Theorem frameNorm_quadruple (frame : Frame) (x0 y0 x1 y1 : float64) :
  frameNorm frame [x0; y0; x1; y1]
  = [scale_trunc (clamp01 x0) (shape1 frame);
     scale_trunc (clamp01 y0) (shape0 frame);
     scale_trunc (clamp01 x1) (shape1 frame);
     scale_trunc (clamp01 y1) (shape0 frame)]
  /\ (forall c, np_clip c (of_int 0) (of_int 1) = clamp01 c)
  /\ (forall c, valid c = true -> is_nan c = false ->
                (0 <= to_Q (clamp01 c) <= 1)%Q)
  /\ clamp01 S754_nan = S754_nan
  /\ (forall c d, valid c = true -> is_nan c = false -> 0 < d < 2 ^ 53 ->
        Qfloor (to_Q (clamp01 c) * inject_Z d) <= scale_trunc (clamp01 c) d
        <= Qfloor (to_Q (clamp01 c) * inject_Z d) + 1)
  /\ (forall c d, valid c = true -> is_nan c = false ->
        binary32 (clamp01 c) -> 0 < d < 2 ^ 29 ->
        scale_trunc (clamp01 c) d = Qfloor (to_Q (clamp01 c) * inject_Z d))
  /\ (forall s m e,
        INT64_MIN <= Qtrunc (to_Q (S754_finite s m e)) <= INT64_MAX ->
        astype_int (S754_finite s m e) = Qtrunc (to_Q (S754_finite s m e))).
Proof.
  split; [rewrite frameNorm_4, !denormalize_eq; reflexivity|].
  split; [exact np_clip_clamp01|].
  split; [intros c V N; apply unit_form_range; now apply clamp01_form|].
  split; [reflexivity|].
  split; [intros c d V N Hd; apply scale_trunc_near;
          [now apply clamp01_form|exact Hd]|].
  split; [intros c d V N B Hd; apply scale_trunc_exact32;
          [now apply clamp01_form|exact B|exact Hd]|].
  exact astype_int_trunc.
Qed.

Lemma frameNorm_quadruple_witness :
  frameNorm frame300 [f64 0.1; f64 0.2; f64 0.5; f64 0.6] = [30; 60; 150; 180]
  /\ frameNorm (mkFrame 200 300 0 []) [f64 0.1; f64 0.2; f64 0.5; f64 0.6]
     = [30; 40; 150; 120]
  /\ scale_trunc (clamp01 (f64 0x1.99999ap-4)) 300
     = Qfloor (to_Q (clamp01 (f64 0x1.99999ap-4)) * inject_Z 300)
  /\ astype_int (f64 (-2.5)) = -2.
Proof.
  destruct (frameNorm_quadruple frame300 (f64 0.1) (f64 0.2) (f64 0.5) (f64 0.6))
    as (H1 & _ & _ & _ & _ & H6 & H7).
  destruct (frameNorm_quadruple (mkFrame 200 300 0 [])
              (f64 0.1) (f64 0.2) (f64 0.5) (f64 0.6)) as (H1' & _).
  split; [rewrite H1; vm_compute; reflexivity|].
  split; [rewrite H1'; vm_compute; reflexivity|].
  split.
  - apply H6; [vm_compute; reflexivity|vm_compute; reflexivity| |lia].
    exists 13421773, (-27). split; [lia|]. split; [lia|].
    vm_compute. reflexivity.
  - change (f64 (-2.5)) with (S754_finite true 5629499534213120 (-51)).
    rewrite H7; [reflexivity|]. vm_compute. split; discriminate.
Defined.

(** C10: [denormalize] is monotone in the coordinate, so on a frame whose
    dimensions binary64 represents, [xmin <= xmax] gives
    [bbox[0] <= bbox[2]] and [ymin <= ymax] gives [bbox[1] <= bbox[3]]: the
    two corners handed to [cv2.rectangle] keep their order. *)
Theorem frameNorm_ordered (frame : Frame) (x0 y0 x1 y1 : float64) :
  0 <= shape0 frame < 2 ^ 53 -> 0 <= shape1 frame < 2 ^ 53 ->
  valid x0 = true -> valid y0 = true -> valid x1 = true -> valid y1 = true ->
  let bbox := frameNorm frame [x0; y0; x1; y1] in
  (leb x0 x1 = true -> nth 0 bbox 0 <= nth 2 bbox 0)
  /\ (leb y0 y1 = true -> nth 1 bbox 0 <= nth 3 bbox 0)
  /\ (forall lbl conf,
        let r := bbox_rect frame (mkDetection lbl conf x0 y0 x1 y1) in
        (leb x0 x1 = true -> fst (pt1 r) <= fst (pt2 r))
        /\ (leb y0 y1 = true -> snd (pt1 r) <= snd (pt2 r)))
  /\ (forall c1 c2 d,
        valid c1 = true -> valid c2 = true -> 0 <= d < 2 ^ 53 ->
        leb c1 c2 = true -> denormalize c1 d <= denormalize c2 d).
Proof.
  intros H0 H1 Vx0 Vy0 Vx1 Vy1 bbox.
  assert (M : forall c1 c2 d,
             valid c1 = true -> valid c2 = true -> 0 <= d < 2 ^ 53 ->
             leb c1 c2 = true -> denormalize c1 d <= denormalize c2 d).
  { intros c1 c2 d V1 V2 Hd L. rewrite !denormalize_eq.
    assert (N1 : is_nan c1 = false) by (now destruct c1).
    assert (N2 : is_nan c2 = false) by (now destruct c1, c2).
    apply scale_trunc_mono; try assumption.
    - now apply clamp01_form.
    - now apply clamp01_form.
    - now apply clamp01_mono. }
  subst bbox. rewrite frameNorm_4. cbn [nth].
  split; [|split; [|split; [|exact M]]].
  - intros L. now apply M.
  - intros L. now apply M.
  - intros lbl conf. unfold bbox_rect.
    cbn [xmin ymin xmax ymax]. rewrite frameNorm_4.
    cbn [nth pt1 pt2 fst snd]. split; intros L; now apply M.
Qed.

Lemma frameNorm_ordered_witness :
  nth 0 (frameNorm frame300 [f64 0.1; f64 0.2; f64 0.5; f64 0.6]) 0
  <= nth 2 (frameNorm frame300 [f64 0.1; f64 0.2; f64 0.5; f64 0.6]) 0
  /\ nth 1 (frameNorm frame300 [f64 0.1; f64 0.2; f64 0.5; f64 0.6]) 0
     <= nth 3 (frameNorm frame300 [f64 0.1; f64 0.2; f64 0.5; f64 0.6]) 0.
Proof.
  assert (D : 0 <= 300 < 2 ^ 53) by lia.
  assert (V1 : valid (f64 0.1) = true) by (vm_compute; reflexivity).
  assert (V2 : valid (f64 0.2) = true) by (vm_compute; reflexivity).
  assert (V3 : valid (f64 0.5) = true) by (vm_compute; reflexivity).
  assert (V4 : valid (f64 0.6) = true) by (vm_compute; reflexivity).
  destruct (frameNorm_ordered frame300 (f64 0.1) (f64 0.2) (f64 0.5) (f64 0.6)
              D D V1 V2 V3 V4) as (A & B & _ & _).
  split; [apply A|apply B]; vm_compute; reflexivity.
Defined.

(** The product is the one binary64 computes.  With the coordinate
    0.333... (the binary64 value next below 1/3) and the dimension 3 it
    rounds up to 1.0, while the exact product is below 1. *)
Example rounded_product :
  denormalize (f64 0x1.5555555555555p-2) 3 = 1
  /\ Qfloor (to_Q (f64 0x1.5555555555555p-2) * inject_Z 3) = 0.
Proof. split; vm_compute; reflexivity. Qed.

(** ** The loop *)

Section Loop.

Lemma frameNorm_rectangle img p1 p2 c t bbox :
  frameNorm (rectangle img p1 p2 c t) bbox = frameNorm img bbox.
Proof. reflexivity. Qed.

Lemma bbox_rect_shape img img' d :
  shape0 img' = shape0 img -> shape1 img' = shape1 img ->
  bbox_rect img' d = bbox_rect img d.
Proof.
  intros H0 H1. unfold bbox_rect, frameNorm. now rewrite H0, H1.
Qed.

Lemma draw_detection_eq img d :
  draw_detection img d =
  mkFrame (shape0 img) (shape1 img) (pixels img) (drawn img ++ [bbox_rect img d]).
Proof. reflexivity. Qed.

Lemma draw_all_eq dets : forall img,
  draw_all img dets =
  mkFrame (shape0 img) (shape1 img) (pixels img)
          (drawn img ++ map (bbox_rect img) dets).
Proof.
  induction dets as [|d dets IH]; intros img; cbn [draw_all fold_left map].
  - rewrite app_nil_r. now destruct img.
  - fold (draw_all (draw_detection img d) dets). rewrite IH.
    rewrite draw_detection_eq. cbn [shape0 shape1 pixels drawn].
    rewrite <- app_assoc. reflexivity.
Qed.

Lemma main_loop_cons p rest st :
  main_loop (p :: rest) st =
  if continues p st
  then (shown p st ++ events rest (next_state p st),
        final_state rest (next_state p st),
        status_of rest (next_state p st))
  else (shown p st, next_state p st, Exited).
Proof.
  unfold continues, shown, next_state, events, final_state, status_of.
  cbn [main_loop]. destruct (step p st) as [[st' out] b]. cbn [fst snd].
  destruct b; [|reflexivity].
  now destruct (main_loop rest st') as [[out' st''] status].
Qed.

Lemma continues_eq p st : continues p st = negb (key p =? 113).
Proof.
  unfold continues, step.
  now destruct (poll_frame p st).
Qed.

Lemma next_state_detections p st :
  detections (next_state p st) = poll_detections p st.
Proof.
  unfold next_state, step. now destruct (poll_frame p st).
Qed.

Lemma next_state_frame p st :
  frame (next_state p st) =
  option_map (fun img => draw_all img (poll_detections p st)) (poll_frame p st).
Proof.
  unfold next_state, step. now destruct (poll_frame p st).
Qed.

Lemma shown_eq p st :
  shown p st =
  match poll_frame p st with
  | Some img => [Imshow "preview" (draw_all img (poll_detections p st))]
  | None => []
  end.
Proof.
  unfold shown, step. now destruct (poll_frame p st).
Qed.

End Loop.

(** C5: when a frame is held after the polls (polled now or kept from an
    earlier iteration), the iteration paints one rectangle per detection of
    the held batch on it, in the colour (255, 0, 0), with thickness 2 (an
    outline, not a filled box), at the corners given by [frameNorm], and
    shows the image so obtained in the window "preview". *)
Theorem step_renders (p : Polls) (st : State) (img : Frame) :
  poll_frame p st = Some img ->
  let painted := draw_all img (poll_detections p st) in
  shown p st = [Imshow "preview" painted]
  /\ frame (next_state p st) = Some painted
  /\ drawn painted = drawn img ++ map (bbox_rect img) (poll_detections p st)
  /\ (forall d, color (bbox_rect img d) = (255, 0, 0)
                /\ thickness (bbox_rect img d) = 2
                /\ filled (bbox_rect img d) = false
                /\ [fst (pt1 (bbox_rect img d)); snd (pt1 (bbox_rect img d));
                    fst (pt2 (bbox_rect img d)); snd (pt2 (bbox_rect img d))]
                   = frameNorm img [xmin d; ymin d; xmax d; ymax d]).
Proof.
  intros H painted. subst painted.
  rewrite shown_eq, next_state_frame, H. cbn [option_map].
  repeat split; try reflexivity.
  now rewrite draw_all_eq.
Qed.

Lemma step_renders_witness :
  poll_frame (mkPolls None None (-1))
             (mkState (Some frame300)
                      [mkDetection 15 (f64 0.9) (f64 0.1) (f64 0.2) (f64 0.5) (f64 0.6)])
  = Some frame300
  /\ shown (mkPolls None None (-1))
           (mkState (Some frame300)
                    [mkDetection 15 (f64 0.9) (f64 0.1) (f64 0.2) (f64 0.5) (f64 0.6)])
     = [Imshow "preview"
               (mkFrame 300 300 0 [mkRect (30, 60) (150, 180) (255, 0, 0) 2])].
Proof.
  split; [reflexivity|].
  destruct (step_renders (mkPolls None None (-1))
             (mkState (Some frame300)
                [mkDetection 15 (f64 0.9) (f64 0.1) (f64 0.2) (f64 0.5) (f64 0.6)])
             frame300 eq_refl) as [H _].
  rewrite H. vm_compute. reflexivity.
Defined.

(** C6, as stated, fails: an iteration whose frame poll is empty still
    renders when a frame is held from an earlier iteration. *)
Lemma empty_frame_poll_still_renders :
  in_rgb (mkPolls None None (-1)) = None
  /\ shown (mkPolls None None (-1)) (mkState (Some frame300) [])
     = [Imshow "preview" frame300]
  /\ ~ (forall p st, in_rgb p = None -> shown p st = []).
Proof.
  split; [reflexivity|]. split; [reflexivity|].
  intros H.
  specialize (H (mkPolls None None (-1)) (mkState (Some frame300) []) eq_refl).
  discriminate H.
Qed.

(** C6, amended: when the frame poll is empty, nothing is rendered exactly
    when no frame is held yet, and then the iteration runs to its end with
    the frame still absent; with a frame held from an earlier iteration, that
    frame is painted and shown again. *)
Theorem step_empty_frame_poll (p : Polls) (st : State) :
  in_rgb p = None ->
  (frame st = None ->
     shown p st = [] /\ frame (next_state p st) = None
     /\ continues p st = negb (key p =? ord "q"))
  /\ (forall img, frame st = Some img ->
        shown p st = [Imshow "preview" (draw_all img (poll_detections p st))]).
Proof.
  intros Hp. split.
  - intros Hf. rewrite shown_eq, next_state_frame, continues_eq.
    unfold poll_frame. rewrite Hp, Hf. repeat split.
  - intros img Hf. rewrite shown_eq. unfold poll_frame. now rewrite Hp, Hf.
Qed.

Lemma step_empty_frame_poll_witness :
  shown (mkPolls None None (-1)) init = []
  /\ shown (mkPolls None None (-1)) (mkState (Some frame300) [])
     = [Imshow "preview" frame300].
Proof.
  pose proof (step_empty_frame_poll (mkPolls None None (-1)) init eq_refl)
    as [H1 _].
  pose proof (step_empty_frame_poll (mkPolls None None (-1))
                (mkState (Some frame300) []) eq_refl) as [_ H2].
  split.
  - exact (proj1 (H1 eq_refl)).
  - exact (H2 frame300 eq_refl).
Defined.

Lemma main_loop_app pre rest : forall st,
  Forall (fun p => key p <> ord "q") pre ->
  status_of pre st = Running
  /\ events (pre ++ rest) st = events pre st ++ events rest (final_state pre st)
  /\ final_state (pre ++ rest) st = final_state rest (final_state pre st)
  /\ status_of (pre ++ rest) st = status_of rest (final_state pre st).
Proof.
  induction pre as [|a pre IH]; intros st HF.
  - repeat split.
  - inversion HF as [|? ? Ha HF']; subst.
    change (ord "q") with 113 in Ha.
    destruct (IH (next_state a st) HF') as (I1 & I2 & I3 & I4).
    unfold status_of, events, final_state in *. cbn [app].
    rewrite !main_loop_cons, continues_eq.
    destruct (Z.eqb_spec (key a) 113) as [E|_]; [contradiction|].
    cbn [negb fst snd]. unfold status_of, events, final_state.
    rewrite I2, I3, I4, app_assoc. repeat split. exact I1.
Qed.

Lemma events_single p st : events [p] st = shown p st.
Proof.
  unfold events. rewrite main_loop_cons.
  destruct (continues p st); cbn [fst]; [|reflexivity].
  unfold events. cbn [main_loop fst]. apply app_nil_r.
Qed.

Lemma shown_new_frame pkt nn k st :
  shown (mkPolls (Some pkt) nn k) st
  = [Imshow "preview"
       (mkFrame (img_height pkt) (img_width pkt) (img_data pkt)
          (map (bbox_rect (getCvFrame pkt))
               (match nn with
                | Some b => detections_of b
                | None => detections st
                end)))].
Proof.
  rewrite shown_eq. cbn [poll_frame poll_detections in_rgb in_nn].
  rewrite draw_all_eq. reflexivity.
Qed.

Lemma final_state_batch_kept mid : forall st,
  Forall (fun p => in_nn p = None /\ key p <> ord "q") mid ->
  detections (final_state mid st) = detections st.
Proof.
  induction mid as [|a mid IH]; intros st HF; [reflexivity|].
  inversion HF as [|? ? [Ha Hk] HF']; subst.
  change (ord "q") with 113 in Hk.
  unfold final_state. rewrite main_loop_cons, continues_eq.
  destruct (Z.eqb_spec (key a) 113) as [E|_]; [contradiction|].
  cbn [negb fst snd]. fold (final_state mid (next_state a st)).
  rewrite IH by assumption. rewrite next_state_detections.
  unfold poll_detections. now rewrite Ha.
Qed.

(** The image shown when a frame arrives after a stretch of iterations
    without a detection packet: the new picture, with one rectangle per
    detection of the batch held before the stretch. *)
Lemma events_next_frame mid st pkt k :
  Forall (fun p => in_nn p = None /\ key p <> ord "q") mid ->
  events (mid ++ [mkPolls (Some pkt) None k]) st
  = events mid st
    ++ [Imshow "preview"
          (mkFrame (img_height pkt) (img_width pkt) (img_data pkt)
             (map (bbox_rect (getCvFrame pkt)) (detections st)))].
Proof.
  intros HF.
  assert (HK : Forall (fun p => key p <> ord "q") mid)
    by (eapply Forall_impl; [|exact HF]; now intros p [_ H]).
  destruct (main_loop_app mid [mkPolls (Some pkt) None k] st HK)
    as (_ & E & _).
  rewrite E, events_single, shown_new_frame.
  now rewrite final_state_batch_kept.
Qed.



(** C8: the key code of [q] (113), read by the key poll that ends an
    iteration, ends the loop there: the iterations that would have followed
    are not run, so nothing more is shown; as long as the key poll returns
    anything else, a key or none, the loop goes on. *)
Theorem quit_key (pre post : list Polls) (p : Polls) (st : State) :
  Forall (fun p => key p <> ord "q") pre ->
  ord "q" = 113
  /\ status_of pre st = Running
  /\ continues p (final_state pre st) = negb (key p =? ord "q")
  /\ (key p = ord "q" ->
      status_of (pre ++ p :: post) st = Exited
      /\ main_loop (pre ++ p :: post) st = main_loop (pre ++ [p]) st
      /\ events (pre ++ p :: post) st
         = events pre st ++ shown p (final_state pre st))
  /\ (key p <> ord "q" ->
      status_of (pre ++ [p]) st = Running
      /\ events (pre ++ p :: post) st
         = events (pre ++ [p]) st
           ++ events post (final_state (pre ++ [p]) st)).
Proof.
  intros HF. split; [reflexivity|].
  destruct (main_loop_app pre (p :: post) st HF) as (R & E1 & F1 & S1).
  destruct (main_loop_app pre [p] st HF) as (_ & E2 & F2 & S2).
  split; [exact R|]. split; [apply continues_eq|].
  assert (Hc := continues_eq p (final_state pre st)).
  change (ord "q") with 113. split.
  - intros Hk.
    assert (C : continues p (final_state pre st) = false)
      by (rewrite Hc, Hk; reflexivity).
    assert (M : main_loop (p :: post) (final_state pre st)
                = main_loop [p] (final_state pre st))
      by (rewrite !main_loop_cons, C; reflexivity).
    assert (X : main_loop (pre ++ p :: post) st = main_loop (pre ++ [p]) st).
    { rewrite (surjective_pairing (main_loop (pre ++ p :: post) st)).
      rewrite (surjective_pairing (fst (main_loop (pre ++ p :: post) st))).
      rewrite (surjective_pairing (main_loop (pre ++ [p]) st)).
      rewrite (surjective_pairing (fst (main_loop (pre ++ [p]) st))).
      unfold events, final_state, status_of in *.
      now rewrite E1, F1, S1, E2, F2, S2, M. }
    split; [|split; [exact X|]].
    + rewrite S1. unfold status_of. now rewrite main_loop_cons, C.
    + rewrite E1. unfold events at 2. now rewrite main_loop_cons, C.
  - intros Hk.
    assert (C : continues p (final_state pre st) = true).
    { rewrite Hc. destruct (Z.eqb_spec (key p) 113); [contradiction|reflexivity]. }
    assert (HF' : Forall (fun p => key p <> ord "q") (pre ++ [p])).
    { apply Forall_app. split; [exact HF|]. constructor; [exact Hk|constructor]. }
    destruct (main_loop_app (pre ++ [p]) post st HF') as (R' & E' & _).
    split; [exact R'|]. rewrite <- app_assoc in E'. exact E'.
Qed.

Lemma quit_key_witness :
  status_of [mkPolls None None (-1); mkPolls None None 113;
             mkPolls (Some (mkImgFrame 300 300 0)) None (-1)] init = Exited
  /\ events [mkPolls None None (-1); mkPolls None None 113;
             mkPolls (Some (mkImgFrame 300 300 0)) None (-1)] init = [].
Proof.
  destruct (quit_key [mkPolls None None (-1)]
              [mkPolls (Some (mkImgFrame 300 300 0)) None (-1)]
              (mkPolls None None 113) init) as (_ & _ & _ & H & _).
  - constructor; [discriminate|constructor].
  - destruct (H eq_refl) as (H1 & _ & H3). split; [exact H1|].
    cbn [app] in H3. rewrite H3. reflexivity.
Defined.

Lemma events_without_frame polls : forall st,
  frame st = None ->
  Forall (fun p => in_rgb p = None) polls ->
  events polls st = [].
Proof.
  induction polls as [|a polls IH]; intros st Hf HF; [reflexivity|].
  inversion HF as [|? ? Ha HF']; subst.
  assert (Hs : shown a st = [])
    by (rewrite shown_eq; unfold poll_frame; now rewrite Ha, Hf).
  assert (Hn : frame (next_state a st) = None)
    by (rewrite next_state_frame; unfold poll_frame; now rewrite Ha, Hf).
  unfold events. rewrite main_loop_cons, Hs.
  destruct (continues a st); [|reflexivity].
  cbn [fst app]. now apply IH.
Qed.

Lemma events_without_detections polls : forall st,
  detections st = [] -> unpainted (frame st) ->
  Forall (fun p => in_nn p = None) polls ->
  Forall (fun ev => drawn (image_of ev) = []) (events polls st).
Proof.
  induction polls as [|a polls IH]; intros st Hd Hf HF; [constructor|].
  inversion HF as [|? ? Ha HF']; subst.
  assert (Hp : poll_detections a st = [])
    by (unfold poll_detections; now rewrite Ha).
  assert (Hu : unpainted (poll_frame a st))
    by (unfold poll_frame; destruct (in_rgb a); [reflexivity|exact Hf]).
  assert (Hs : Forall (fun ev => drawn (image_of ev) = []) (shown a st)).
  { rewrite shown_eq, Hp. destruct (poll_frame a st); constructor;
      [exact Hu|constructor]. }
  unfold events. rewrite main_loop_cons.
  destruct (continues a st); [|exact Hs].
  cbn [fst]. apply Forall_app. split; [exact Hs|].
  apply IH; [| |exact HF'].
  - now rewrite next_state_detections.
  - rewrite next_state_frame, Hp. now destruct (poll_frame a st).
Qed.

(** C9: the loop starts with no frame and an empty batch.  While every
    frame poll is empty nothing is shown; while every detection poll is
    empty each image shown carries no rectangle; and a frame that arrives
    before any detection batch is shown, in the window "preview", as the
    picture received with no rectangle on it. *)
Theorem starts_empty (polls1 polls2 before : list Polls) :
  Forall (fun p => in_rgb p = None) polls1 ->
  Forall (fun p => in_nn p = None) polls2 ->
  Forall (fun p => in_nn p = None /\ key p <> ord "q") before ->
  frame init = None /\ detections init = []
  /\ events polls1 init = []
  /\ Forall (fun ev => drawn (image_of ev) = []) (events polls2 init)
  /\ (forall pkt k,
        events (before ++ [mkPolls (Some pkt) None k]) init
        = events before init
          ++ [Imshow "preview"
                (mkFrame (img_height pkt) (img_width pkt) (img_data pkt) [])])
  /\ (Forall (fun p => in_rgb p = None) before ->
      forall pkt k,
        events (before ++ [mkPolls (Some pkt) None k]) init
        = [Imshow "preview"
             (mkFrame (img_height pkt) (img_width pkt) (img_data pkt) [])]).
Proof.
  intros H1 H2 H3.
  split; [reflexivity|]. split; [reflexivity|].
  split; [now apply events_without_frame|].
  split; [now apply events_without_detections|].
  split.
  - intros pkt k. now rewrite events_next_frame.
  - intros H4 pkt k. rewrite events_next_frame by assumption.
    now rewrite events_without_frame.
Qed.

Lemma starts_empty_witness :
  events [mkPolls None (Some (mkImgDetections
            [mkDetection 15 (f64 0.9) (f64 0.1) (f64 0.2) (f64 0.5) (f64 0.6)]))
            (-1)] init = []
  /\ Forall (fun ev => drawn (image_of ev) = [])
            (events [mkPolls None None (-1);
                     mkPolls (Some (mkImgFrame 300 300 7)) None (-1)] init)
  /\ events ([mkPolls None None (-1); mkPolls None None 81]
             ++ [mkPolls (Some (mkImgFrame 300 300 7)) None (-1)]) init
     = [Imshow "preview" (mkFrame 300 300 7 [])].
Proof.
  assert (H1 : Forall (fun p => in_rgb p = None)
                 [mkPolls None (Some (mkImgDetections
                    [mkDetection 15 (f64 0.9) (f64 0.1) (f64 0.2) (f64 0.5)
                                 (f64 0.6)])) (-1)])
    by (repeat constructor).
  assert (H2 : Forall (fun p => in_nn p = None)
                 [mkPolls None None (-1);
                  mkPolls (Some (mkImgFrame 300 300 7)) None (-1)])
    by (repeat constructor).
  assert (H3 : Forall (fun p => in_nn p = None /\ key p <> ord "q")
                 [mkPolls None None (-1); mkPolls None None 81])
    by (repeat constructor; discriminate).
  assert (H4 : Forall (fun p => in_rgb p = None)
                 [mkPolls None None (-1); mkPolls None None 81])
    by (repeat constructor).
  destruct (starts_empty _ _ _ H1 H2 H3) as (_ & _ & A & B & _ & C).
  split; [exact A|]. split; [exact B|].
  exact (C H4 (mkImgFrame 300 300 7) (-1)).
Defined.

(** ** frameNorm on concrete inputs *)

(** C7: on a 300 x 300 frame the detection (0.1, 0.2, 0.5, 0.6) gets the
    rectangle corners (30, 60) and (150, 180); this holds for the binary64
    values of the four literals and for their binary32 values (the device
    reports single-precision coordinates), whatever the label and the
    confidence are. *)
Theorem corners_300 :
  frameNorm frame300 [f64 0.1; f64 0.2; f64 0.5; f64 0.6] = [30; 60; 150; 180]
  /\ frameNorm frame300
       [f64 0x1.99999ap-4; f64 0x1.99999ap-3; f64 0.5; f64 0x1.333334p-1]
     = [30; 60; 150; 180]
  /\ (forall lbl conf,
        bbox_rect frame300 (mkDetection lbl conf (f64 0.1) (f64 0.2) (f64 0.5) (f64 0.6))
        = mkRect (30, 60) (150, 180) (255, 0, 0) 2)
  /\ (forall lbl conf,
        shown (mkPolls (Some (mkImgFrame 300 300 0))
                 (Some (mkImgDetections
                    [mkDetection lbl conf (f64 0.1) (f64 0.2) (f64 0.5) (f64 0.6)]))
                 (-1)) init
        = [Imshow "preview"
             (mkFrame 300 300 0 [mkRect (30, 60) (150, 180) (255, 0, 0) 2])]).
Proof.
  assert (E : frameNorm frame300 [f64 0.1; f64 0.2; f64 0.5; f64 0.6]
              = [30; 60; 150; 180]) by (vm_compute; reflexivity).
  split; [exact E|]. split; [vm_compute; reflexivity|]. split.
  - intros. unfold bbox_rect. cbn [xmin ymin xmax ymax]. rewrite E. reflexivity.
  - intros. rewrite shown_eq. cbn [poll_frame poll_detections in_rgb in_nn detections_of].
    rewrite draw_all_eq. fold frame300. cbn [map].
    unfold bbox_rect. cbn [xmin ymin xmax ymax]. rewrite E. reflexivity.
Qed.

Lemma clip_below : np_clip (f64 (-0.5)) (of_int 0) (of_int 1) = of_int 0.
Proof. vm_compute. reflexivity. Qed.

Lemma clip_above : np_clip (f64 1.5) (of_int 0) (of_int 1) = of_int 1.
Proof. vm_compute. reflexivity. Qed.

Lemma clip_0 : np_clip (of_int 0) (of_int 0) (of_int 1) = of_int 0.
Proof. vm_compute. reflexivity. Qed.

Lemma clip_1 : np_clip (of_int 1) (of_int 0) (of_int 1) = of_int 1.
Proof. vm_compute. reflexivity. Qed.

Lemma scale_trunc_one d : 0 < d < 2 ^ 53 -> scale_trunc (of_int 1) d = d.
Proof.
  intros Hd. destruct (of_int_exact d Hd) as (md & ed & EO & ED).
  rewrite of_int_1.
  assert (Hc : (dy (Zpos 4503599627370496) (-52) <= 1)%Q)
    by (rewrite dy_one; apply Qle_refl).
  destruct (scale_trunc_pos _ _ d md ed EO ED Hc Hd) as (-> & _ & _ & Hg).
  rewrite <- (Qfloor_Z d) at 1. apply Qfloor_comp.
  assert (Ex : (dy (Zpos 4503599627370496 * Zpos md) (-52 + ed) == dy d 0)%Q)
    by (rewrite dy_mul, dy_one, ED, dy_Z; ring).
  rewrite <- dy_Z. apply Qle_antisym.
  - apply rnd_le_point; [exact Hg|]. rewrite Ex. apply Qle_refl.
  - apply rnd_ge_point; [exact Hg|]. rewrite Ex. apply Qle_refl.
Qed.

(** C3: the coordinate -0.5 is clipped to 0 and the coordinate 1.5 to 1
    before the scaling, so each gives the pixel position that 0,
    respectively 1, gives, on every frame: the position 0, respectively
    the frame dimension. *)
Theorem clip_out_of_range :
  np_clip (f64 (-0.5)) (of_int 0) (of_int 1) = of_int 0
  /\ np_clip (f64 1.5) (of_int 0) (of_int 1) = of_int 1
  /\ (forall d, denormalize (f64 (-0.5)) d = denormalize (of_int 0) d
                /\ denormalize (f64 (-0.5)) d = scale_trunc (of_int 0) d)
  /\ (forall d, denormalize (f64 1.5) d = denormalize (of_int 1) d
                /\ denormalize (f64 1.5) d = scale_trunc (of_int 1) d)
  /\ (forall frame,
        frameNorm frame [f64 (-0.5); f64 1.5; f64 1.5; f64 (-0.5)]
        = frameNorm frame [of_int 0; of_int 1; of_int 1; of_int 0])
  /\ (forall d, 0 < d < 2 ^ 53 ->
                denormalize (f64 (-0.5)) d = 0 /\ denormalize (f64 1.5) d = d).
Proof.
  split; [exact clip_below|]. split; [exact clip_above|].
  split; [|split; [|split]]; intros; [split|split| |];
    unfold denormalize, scale_trunc, frameNorm;
    cbn [map]; rewrite ?clip_below, ?clip_above, ?clip_0, ?clip_1;
    try reflexivity.
  split.
  - apply (scale_trunc_zero d). lia.
  - now apply scale_trunc_one.
Qed.

Lemma clip_out_of_range_witness :
  denormalize (f64 (-0.5)) 300 = 0 /\ denormalize (f64 1.5) 300 = 300.
Proof.
  destruct clip_out_of_range as (_ & _ & _ & _ & _ & H).
  apply (H 300). lia.
Defined.

(** * Further properties of [frameNorm] *)

Lemma frameNorm_nil frame : frameNorm frame [] = [].
Proof. reflexivity. Qed.

Lemma frameNorm_one frame a :
  frameNorm frame [a] = [denormalize a (shape1 frame)].
Proof. reflexivity. Qed.

Lemma frameNorm_cons2 frame a b rest :
  frameNorm frame (a :: b :: rest)
  = denormalize a (shape1 frame) :: denormalize b (shape0 frame)
    :: frameNorm frame rest.
Proof. reflexivity. Qed.

(** Induction on a list, two cells at a time, as [a[::2]] walks it. *)
Lemma list_ind2 {A} (P : list A -> Prop) :
  P [] -> (forall a, P [a]) -> (forall a b l, P l -> P (a :: b :: l)) ->
  forall l, P l.
Proof.
  intros H0 H1 H2.
  assert (H : forall l, P l /\ forall a, P (a :: l)).
  { induction l as [|b l [IH1 IH2]]; split; auto. }
  intros l. apply H.
Qed.

Lemma frameNorm_length frame bbox :
  List.length (frameNorm frame bbox) = List.length bbox.
Proof.
  induction bbox as [|a|a b l IH] using list_ind2; try reflexivity.
  rewrite frameNorm_cons2. cbn [List.length]. now rewrite IH.
Qed.

Lemma frameNorm_nth frame bbox : forall i,
  (i < List.length bbox)%nat ->
  nth i (frameNorm frame bbox) 0
  = denormalize (nth i bbox (of_int 0))
                (if Nat.even i then shape1 frame else shape0 frame).
Proof.
  induction bbox as [|a|a b l IH] using list_ind2; intros i Hi.
  - cbn in Hi. lia.
  - cbn in Hi. assert (i = 0%nat) by lia. subst i. reflexivity.
  - rewrite frameNorm_cons2. destruct i as [|[|i]]; try reflexivity.
    cbn [nth List.length] in *. rewrite IH by lia. reflexivity.
Qed.

(** X1: [frameNorm] works on a coordinate list of any length: the result
    has the length of the input (so an empty tuple gives an empty array),
    and its cell [i] is the clipped coordinate [i] scaled by the frame width
    [shape1] when [i] is even and by the frame height [shape0] when [i] is
    odd. *)
Theorem frameNorm_cells (frame : Frame) (bbox : list float64) :
  List.length (frameNorm frame bbox) = List.length bbox
  /\ (forall i, (i < List.length bbox)%nat ->
        nth i (frameNorm frame bbox) 0
        = astype_int
            (mul (np_clip (nth i bbox (of_int 0)) (of_int 0) (of_int 1))
                 (of_int (if Nat.even i then shape1 frame else shape0 frame)))).
Proof.
  split; [apply frameNorm_length|].
  intros i Hi. now rewrite frameNorm_nth.
Qed.

Lemma frameNorm_cells_witness :
  nth 4 (frameNorm (mkFrame 200 300 0 [])
           [f64 0.1; f64 0.2; f64 0.5; f64 0.6; f64 0.25; f64 0.25]) 0 = 75
  /\ nth 5 (frameNorm (mkFrame 200 300 0 [])
              [f64 0.1; f64 0.2; f64 0.5; f64 0.6; f64 0.25; f64 0.25]) 0 = 50.
Proof.
  destruct (frameNorm_cells (mkFrame 200 300 0 [])
              [f64 0.1; f64 0.2; f64 0.5; f64 0.6; f64 0.25; f64 0.25])
    as [_ H].
  split; rewrite H by (cbn; lia); vm_compute; reflexivity.
Defined.

Lemma denormalize_range c d :
  number c -> 0 <= d < 2 ^ 53 -> 0 <= denormalize c d <= d.
Proof.
  intros [V N] Hd. rewrite denormalize_eq.
  apply scale_trunc_range; [now apply clamp01_form|assumption].
Qed.

(** X2: whatever numbers the coordinates are (negative, above 1,
    infinite), every cell of the result is a position on the frame or on
    its border: between 0 and the width for the even cells, between 0 and
    the height for the odd ones. *)
Theorem frameNorm_within_frame (frame : Frame) (bbox : list float64) :
  0 <= shape0 frame < 2 ^ 53 -> 0 <= shape1 frame < 2 ^ 53 ->
  Forall number bbox ->
  forall i, (i < List.length bbox)%nat ->
    0 <= nth i (frameNorm frame bbox) 0
      <= (if Nat.even i then shape1 frame else shape0 frame).
Proof.
  intros H0 H1 HF i Hi. rewrite frameNorm_nth by assumption.
  apply denormalize_range.
  - rewrite Forall_forall in HF. apply HF. now apply nth_In.
  - destruct (Nat.even i); assumption.
Qed.

Lemma frameNorm_within_frame_witness :
  0 <= nth 2 (frameNorm frame300
                [f64 (-0.5); f64 0.2; S754_infinity false; f64 7]) 0 <= 300.
Proof.
  apply (frameNorm_within_frame frame300
           [f64 (-0.5); f64 0.2; S754_infinity false; f64 7]).
  - change (0 <= 300 < 2 ^ 53). lia.
  - change (0 <= 300 < 2 ^ 53). lia.
  - repeat constructor.
  - cbn. lia.
Defined.

Lemma clamp01_low c : leb c (of_int 0) = true -> clamp01 c = of_int 0.
Proof. intros H. unfold clamp01. now rewrite H. Qed.

Lemma clamp01_high c : leb (of_int 1) c = true -> clamp01 c = of_int 1.
Proof.
  intros H. unfold clamp01.
  replace (leb c (of_int 0)) with false; [now rewrite H|].
  rewrite of_int_0, of_int_1 in *.
  destruct c as [[|]|[|]| |[|] m e]; try discriminate H; reflexivity.
Qed.

(** X3: saturation.  A coordinate at or below 0 (down to minus infinity)
    gives the position 0, a coordinate at or above 1 (up to plus infinity)
    gives the frame dimension itself. *)
Theorem denormalize_saturates (c : float64) (d : Z) :
  0 <= d < 2 ^ 53 ->
  (leb c (of_int 0) = true -> denormalize c d = 0)
  /\ (leb (of_int 1) c = true -> denormalize c d = d).
Proof.
  intros Hd. split; intros H; rewrite denormalize_eq.
  - rewrite clamp01_low by assumption. apply scale_trunc_zero. assumption.
  - rewrite clamp01_high by assumption.
    destruct (Z.eq_dec d 0) as [->|N]; [reflexivity|].
    apply scale_trunc_one. lia.
Qed.

Lemma denormalize_saturates_witness :
  denormalize (S754_infinity true) 300 = 0
  /\ denormalize (S754_infinity false) 300 = 300
  /\ denormalize (f64 (-3)) 300 = 0 /\ denormalize (f64 42) 300 = 300.
Proof.
  assert (D : 0 <= 300 < 2 ^ 53) by lia.
  split; [|split; [|split]].
  - apply (proj1 (denormalize_saturates (S754_infinity true) 300 D)).
    reflexivity.
  - apply (proj2 (denormalize_saturates (S754_infinity false) 300 D)).
    vm_compute. reflexivity.
  - apply (proj1 (denormalize_saturates (f64 (-3)) 300 D)).
    vm_compute. reflexivity.
  - apply (proj2 (denormalize_saturates (f64 42) 300 D)).
    vm_compute. reflexivity.
Defined.

(** X4: a larger frame never gives a smaller pixel position: for a fixed
    numeric coordinate, [denormalize] is monotone in the frame dimension. *)
Theorem denormalize_dimension_monotone (c : float64) (d1 d2 : Z) :
  number c -> 0 <= d1 -> d1 <= d2 -> d2 < 2 ^ 53 ->
  denormalize c d1 <= denormalize c d2.
Proof.
  intros [V N] H0 H12 H2. rewrite !denormalize_eq.
  pose proof (clamp01_form c V N) as Hx.
  pose proof (scale_trunc_range (clamp01 c) d2 Hx ltac:(lia)) as R2.
  destruct (Z.eq_dec d1 0) as [->|N1].
  - rewrite scale_trunc_dim_0 by assumption. lia.
  - destruct Hx as [->|(m & e & -> & Hc)].
    + rewrite !scale_trunc_zero by lia. lia.
    + destruct (of_int_exact d1 ltac:(lia)) as (md1 & ed1 & EO1 & ED1).
      destruct (of_int_exact d2 ltac:(lia)) as (md2 & ed2 & EO2 & ED2).
      destruct (scale_trunc_pos m e d1 md1 ed1 EO1 ED1 Hc ltac:(lia))
        as (-> & _).
      destruct (scale_trunc_pos m e d2 md2 ed2 EO2 ED2 Hc ltac:(lia))
        as (-> & _).
      apply Qfloor_resp_le. apply rnd_mono; try lia.
      rewrite !dy_mul, ED1, ED2.
      rewrite !(Qmult_comm (dy (Zpos m) e)).
      apply Qmult_le_compat_r; [rewrite <- Zle_Qle; lia|].
      apply dy_nonneg. lia.
Qed.

Lemma denormalize_dimension_monotone_witness :
  denormalize (f64 0.6) 300 <= denormalize (f64 0.6) 301.
Proof.
  apply denormalize_dimension_monotone; try lia.
  split; vm_compute; reflexivity.
Defined.

(** X5: for every numeric coordinate, in range or not, the position
    returned is the floor of the exact product of the clamped coordinate
    and the dimension, or that floor plus one: the rounding of the binary64
    product moves the result by at most one pixel. *)
Theorem denormalize_one_pixel (c : float64) (d : Z) :
  number c -> 0 < d < 2 ^ 53 ->
  Qfloor (to_Q (clamp01 c) * inject_Z d) <= denormalize c d
  <= Qfloor (to_Q (clamp01 c) * inject_Z d) + 1.
Proof.
  intros [V N] Hd. rewrite denormalize_eq.
  destruct (clamp01_form c V N) as [->|(m & e & -> & Hc)].
  - rewrite scale_trunc_zero by lia. cbn [to_Q].
    rewrite (Qfloor_comp _ 0%Q) by apply Qmult_0_l. cbn. lia.
  - destruct (of_int_exact d Hd) as (md & ed & EO & ED).
    destruct (scale_trunc_pos m e d md ed EO ED Hc Hd) as (-> & _ & _ & Hg).
    cbn [to_Q cond_Zopp].
    assert (Ex : (dy (Zpos m * Zpos md) (e + ed) == dy (Zpos m) e * inject_Z d)%Q)
      by (rewrite dy_mul, ED; reflexivity).
    set (x := (dy (Zpos m) e * inject_Z d)%Q) in *.
    split.
    + rewrite <- (Qfloor_Z (Qfloor x)) at 1. apply Qfloor_resp_le.
      rewrite <- dy_Z. apply rnd_ge_point; [exact Hg|].
      rewrite dy_Z, Ex. apply Qfloor_le.
    + rewrite <- (Qfloor_Z (Qfloor x + 1)). apply Qfloor_resp_le.
      rewrite <- dy_Z. apply rnd_le_point; [exact Hg|].
      rewrite dy_Z, Ex. apply Qlt_le_weak. apply Qlt_floor.
Qed.

Lemma denormalize_one_pixel_witness :
  Qfloor (to_Q (clamp01 (f64 1.7)) * inject_Z 300) <= denormalize (f64 1.7) 300
  <= Qfloor (to_Q (clamp01 (f64 1.7)) * inject_Z 300) + 1.
Proof.
  apply denormalize_one_pixel; [|lia].
  split; vm_compute; reflexivity.
Defined.

(** * Further properties of the loop *)

Lemma draw_all_buffer img dets : buffer_of (draw_all img dets) = buffer_of img.
Proof. now rewrite draw_all_eq. Qed.

Lemma events_cons p rest st :
  events (p :: rest) st
  = shown p st ++ if key p =? 113 then [] else events rest (next_state p st).
Proof.
  unfold events at 1. rewrite main_loop_cons, continues_eq.
  destruct (key p =? 113); cbn [negb fst]; [now rewrite app_nil_r|reflexivity].
Qed.

Lemma final_state_cons p rest st :
  final_state (p :: rest) st
  = if key p =? 113 then next_state p st
    else final_state rest (next_state p st).
Proof.
  unfold final_state at 1. rewrite main_loop_cons, continues_eq.
  now destruct (key p =? 113).
Qed.

Lemma processed_cons p rest :
  processed (p :: rest) = p :: if key p =? 113 then [] else processed rest.
Proof. reflexivity. Qed.

Lemma main_loop_processed polls : forall st,
  main_loop (processed polls) st = main_loop polls st.
Proof.
  induction polls as [|p rest IH]; intros st; [reflexivity|].
  rewrite processed_cons, !main_loop_cons, continues_eq.
  unfold events, final_state, status_of.
  destruct (key p =? 113); cbn [negb]; [reflexivity|]. now rewrite IH.
Qed.

(** X6: the loop shows at most one image per iteration, always in the
    window "preview", and it never lets go of a frame: from the moment a
    frame is held, every iteration that runs shows an image, and a frame is
    still held when the run ends. *)
Theorem frame_stays_held (polls : list Polls) (st : State) :
  (List.length (events polls st) <= List.length (processed polls))%nat
  /\ Forall (fun ev => window_of ev = "preview"%string) (events polls st)
  /\ (frame st <> None ->
      List.length (events polls st) = List.length (processed polls)
      /\ frame (final_state polls st) <> None).
Proof.
  revert st. induction polls as [|p rest IH]; intros st.
  - split; [apply Nat.le_refl|]. split; [constructor|].
    intros Hf. split; [reflexivity|exact Hf].
  - rewrite events_cons, final_state_cons, processed_cons, shown_eq.
    destruct (IH (next_state p st)) as (L & W & K).
    assert (Hn : poll_frame p st <> None -> frame (next_state p st) <> None).
    { rewrite next_state_frame. now destruct (poll_frame p st). }
    assert (Hp : frame st <> None -> poll_frame p st <> None).
    { unfold poll_frame. now destruct (in_rgb p). }
    split; [|split].
    + destruct (poll_frame p st), (key p =? 113); cbn [List.length app]; lia.
    + apply Forall_app. split.
      * destruct (poll_frame p st); repeat constructor.
      * destruct (key p =? 113); [constructor|exact W].
    + intros Hf. specialize (Hp Hf). specialize (Hn Hp).
      destruct (K Hn) as [K1 K2].
      destruct (poll_frame p st) as [img|]; [|now elim Hp].
      destruct (key p =? 113); cbn [List.length app].
      * split; [reflexivity|exact Hn].
      * split; [now rewrite K1|exact K2].
Qed.

Lemma frame_stays_held_witness :
  List.length (events [mkPolls None None (-1); mkPolls None None 81;
                       mkPolls None None 113; mkPolls None None (-1)]
                      (mkState (Some frame300) [])) = 3%nat.
Proof.
  destruct (frame_stays_held
              [mkPolls None None (-1); mkPolls None None 81;
               mkPolls None None 113; mkPolls None None (-1)]
              (mkState (Some frame300) [])) as (_ & _ & H).
  destruct H as [H _]; [discriminate|]. exact H.
Defined.

Lemma bbox_rect_draw_all img dets d :
  bbox_rect (draw_all img dets) d = bbox_rect img d.
Proof. apply bbox_rect_shape; now rewrite draw_all_eq. Qed.

(** X7: [cv2.rectangle] paints on the held image itself, so while no new
    frame arrives the rectangles pile up on it: the image held after a run
    of iterations whose frame polls are all empty is the same picture, with
    the rectangles it had before followed by those of the batch held in
    each iteration run, batches that were replaced in the meantime
    included. *)
Theorem stall_accumulates (polls : list Polls) (st : State) (img : Frame) :
  frame st = Some img ->
  Forall (fun p => in_rgb p = None) polls ->
  exists img',
    frame (final_state polls st) = Some img'
    /\ buffer_of img' = buffer_of img
    /\ drawn img'
       = drawn img
         ++ flat_map (map (bbox_rect img))
                     (held_batches polls (detections st)).
Proof.
  revert st img. induction polls as [|p rest IH]; intros st img Hf HF.
  - exists img. cbn [held_batches flat_map]. rewrite app_nil_r.
    repeat split. exact Hf.
  - inversion HF as [|? ? Hp HF']; subst.
    rewrite final_state_cons. cbn [held_batches].
    change (ord "q") with 113.
    assert (Epf : poll_frame p st = Some img)
      by (unfold poll_frame; now rewrite Hp).
    assert (Ed : poll_detections p st
                 = match in_nn p with
                   | Some pkt => detections_of pkt
                   | None => detections st
                   end) by reflexivity.
    assert (En : frame (next_state p st)
                 = Some (draw_all img (poll_detections p st)))
      by (now rewrite next_state_frame, Epf).
    rewrite <- Ed.
    destruct (key p =? 113).
    + exists (draw_all img (poll_detections p st)).
      split; [exact En|]. split; [apply draw_all_buffer|].
      rewrite draw_all_eq. cbn [drawn flat_map]. now rewrite app_nil_r.
    + destruct (IH (next_state p st) _ En HF') as (img' & F & B & D).
      exists img'. split; [exact F|].
      split; [now rewrite B, draw_all_buffer|].
      rewrite D, next_state_detections. cbn [flat_map].
      rewrite draw_all_eq at 1. cbn [drawn]. rewrite <- app_assoc.
      f_equal. f_equal. apply flat_map_ext. intros l.
      apply map_ext. intros d. apply bbox_rect_draw_all.
Qed.

Lemma stall_accumulates_witness :
  exists img',
    frame (final_state
             [mkPolls None None (-1);
              mkPolls None (Some (mkImgDetections
                 [mkDetection 15 (f64 0.9) (f64 0.1) (f64 0.2) (f64 0.5) (f64 0.6)]))
                 (-1);
              mkPolls None (Some (mkImgDetections [])) (-1);
              mkPolls None None (-1)]
             (mkState (Some frame300)
                [mkDetection 7 (f64 0.8) (f64 0) (f64 0) (f64 1) (f64 1)]))
    = Some img'
    /\ drawn img' = [mkRect (0, 0) (300, 300) (255, 0, 0) 2;
                     mkRect (30, 60) (150, 180) (255, 0, 0) 2].
Proof.
  destruct (stall_accumulates
              [mkPolls None None (-1);
               mkPolls None (Some (mkImgDetections
                  [mkDetection 15 (f64 0.9) (f64 0.1) (f64 0.2) (f64 0.5) (f64 0.6)]))
                  (-1);
               mkPolls None (Some (mkImgDetections [])) (-1);
               mkPolls None None (-1)]
              (mkState (Some frame300)
                 [mkDetection 7 (f64 0.8) (f64 0) (f64 0) (f64 1) (f64 1)])
              frame300 eq_refl) as (img' & F & _ & D).
  - repeat constructor.
  - exists img'. split; [exact F|]. rewrite D. vm_compute. reflexivity.
Defined.

Lemma bbox_rect_in_frame img d :
  0 <= shape0 img < 2 ^ 53 -> 0 <= shape1 img < 2 ^ 53 ->
  numeric_detection d -> rect_in_frame img (bbox_rect img d).
Proof.
  intros H0 H1 (Nx0 & Ny0 & Nx1 & Ny1). unfold rect_in_frame, bbox_rect.
  rewrite frameNorm_4. cbn [nth pt1 pt2 color thickness fst snd].
  repeat split; try (apply denormalize_range; assumption).
Qed.

Lemma rect_in_frame_buffer img img' r :
  buffer_of img' = buffer_of img -> rect_in_frame img r -> rect_in_frame img' r.
Proof.
  unfold buffer_of, rect_in_frame. intros E. injection E as E0 E1 _.
  now rewrite E0, E1.
Qed.

Lemma draw_all_in_frame img dets :
  0 <= shape0 img < 2 ^ 53 -> 0 <= shape1 img < 2 ^ 53 ->
  Forall (rect_in_frame img) (drawn img) ->
  Forall numeric_detection dets ->
  Forall (rect_in_frame (draw_all img dets)) (drawn (draw_all img dets)).
Proof.
  intros H0 H1 HD HN.
  apply Forall_impl with (P := rect_in_frame img).
  - intros r. apply rect_in_frame_buffer. apply draw_all_buffer.
  - rewrite draw_all_eq. cbn [drawn]. apply Forall_app. split; [exact HD|].
    apply Forall_map. eapply Forall_impl; [|exact HN].
    intros d. now apply bbox_rect_in_frame.
Qed.

Lemma step_state_ok p st :
  state_ok st -> device_polls p ->
  state_ok (next_state p st)
  /\ Forall (fun ev => Forall (rect_in_frame (image_of ev))
                              (drawn (image_of ev))) (shown p st).
Proof.
  intros [SD SF] [PF PD].
  assert (HD : Forall numeric_detection (poll_detections p st)).
  { unfold poll_detections. now destruct (in_nn p). }
  assert (HF : match poll_frame p st with
               | Some img =>
                   0 <= shape0 img < 2 ^ 53 /\ 0 <= shape1 img < 2 ^ 53
                   /\ Forall (rect_in_frame img) (drawn img)
               | None => True
               end).
  { unfold poll_frame. destruct (in_rgb p) as [pkt|]; [|exact SF].
    cbn [getCvFrame shape0 shape1 drawn]. destruct PF as [P0 P1].
    split; [exact P0|]. split; [exact P1|constructor]. }
  unfold state_ok. rewrite next_state_detections, next_state_frame, shown_eq.
  destruct (poll_frame p st) as [img|]; cbn [option_map].
  - destruct HF as (H0 & H1 & H2).
    pose proof (draw_all_in_frame img _ H0 H1 H2 HD) as HA.
    pose proof (draw_all_buffer img (poll_detections p st)) as HB.
    unfold buffer_of in HB. injection HB as E0 E1 _.
    split; [split; [exact HD|]|].
    + rewrite E0, E1. repeat split; try apply H0; try apply H1. exact HA.
    + constructor; [exact HA|constructor].
  - split; [split; [exact HD|exact I]|constructor].
Qed.

Lemma events_in_frame polls : forall st,
  state_ok st -> Forall device_polls polls ->
  Forall (fun ev => Forall (rect_in_frame (image_of ev)) (drawn (image_of ev)))
         (events polls st).
Proof.
  induction polls as [|p rest IH]; intros st Hs HF; [constructor|].
  inversion HF as [|? ? Hp HF']; subst.
  destruct (step_state_ok p st Hs Hp) as [Hs' Hsh].
  rewrite events_cons. apply Forall_app. split; [exact Hsh|].
  destruct (key p =? 113); [constructor|]. now apply IH.
Qed.

(** X8: on the packets the device sends (image dimensions that binary64
    represents, detections whose coordinates are numbers), every rectangle
    on every image the loop shows has both corners on that image or on its
    border, has the colour (255, 0, 0) and the thickness 2: whatever the
    network reports, nothing is painted outside the frame. *)
Theorem rectangles_within_frame (polls : list Polls) :
  Forall device_polls polls ->
  Forall (fun ev => Forall (rect_in_frame (image_of ev)) (drawn (image_of ev)))
         (events polls init).
Proof.
  apply events_in_frame. split; [constructor|exact I].
Qed.

Lemma rectangles_within_frame_witness :
  Forall (fun ev => Forall (rect_in_frame (image_of ev)) (drawn (image_of ev)))
         (events [mkPolls (Some (mkImgFrame 300 300 0))
                    (Some (mkImgDetections
                       [mkDetection 15 (f64 0.9) (f64 (-0.5)) (f64 0.2)
                                    (f64 1.5) (S754_infinity false)]))
                    (-1)] init).
Proof.
  apply rectangles_within_frame.
  constructor; [|constructor].
  split; cbn [in_rgb in_nn img_height img_width detections_of].
  - split; lia.
  - repeat constructor.
Defined.

(** X9: over a whole run the two variables hold the latest values.  The
    run only depends on the iterations up to the first [q]; when it ends,
    the held batch is the one of the last detection packet received (the
    initial batch if there was none) and the held image is the picture of
    the last frame packet received (the initial image if there was none),
    with rectangles painted on it. *)
Theorem run_keeps_latest (polls : list Polls) (st : State) :
  main_loop polls st = main_loop (processed polls) st
  /\ detections (final_state polls st)
     = match last_some (map in_nn (processed polls)) with
       | Some pkt => detections_of pkt
       | None => detections st
       end
  /\ option_map buffer_of (frame (final_state polls st))
     = match last_some (map in_rgb (processed polls)) with
       | Some pkt => Some (buffer_of_packet pkt)
       | None => option_map buffer_of (frame st)
       end.
Proof.
  split; [symmetry; apply main_loop_processed|].
  revert st. induction polls as [|p rest IH]; intros st; [now split|].
  rewrite final_state_cons, processed_cons.
  assert (ED : detections (next_state p st)
               = match in_nn p with
                 | Some pkt => detections_of pkt
                 | None => detections st
                 end) by (now rewrite next_state_detections).
  assert (EF : option_map buffer_of (frame (next_state p st))
               = match in_rgb p with
                 | Some pkt => Some (buffer_of_packet pkt)
                 | None => option_map buffer_of (frame st)
                 end).
  { rewrite next_state_frame. unfold poll_frame.
    destruct (in_rgb p) as [pkt|]; cbn [option_map].
    - now rewrite draw_all_buffer.
    - destruct (frame st); cbn [option_map]; [now rewrite draw_all_buffer|reflexivity]. }
  destruct (key p =? 113); cbn [map last_some].
  - split; [exact ED|exact EF].
  - destruct (IH (next_state p st)) as [ID IF]. rewrite ID, IF, ED, EF.
    split.
    + now destruct (last_some (map in_nn (processed rest))).
    + now destruct (last_some (map in_rgb (processed rest))).
Qed.
